(** * Metis-Carrier: the RPC rate limiter and the protobuf wrappers

    A shallow embedding of
    - [handler/rate_limiter.go]: the per-topic, per-peer limiter built on
      leaky-bucket collectors, and
    - the [types] package wrappers [Resource] / [Task] with their array
      conversions,
    together with the properties the specification states about them. *)

From Stdlib Require Import ZArith Lia.
From Stdlib.Strings Require Import Byte.
From stdpp Require Import base option list functions gmap strings fin_maps.

Local Open Scope Z_scope.

(** ** Collaborators of the limiter *)

(** Addresses of heap objects: a pointer to a [leakybucket.Collector] is
    an address, and two topic keys alias one collector exactly when they
    hold the same address. *)
Abbreviation loc := nat (only parsing).

(** What the limiter consumes from package [p2p] and from the constants of
    its own package that live in other files: the encoding suffix, the
    RPC topic names, the textual form of a peer id, the response code and
    the text of [p2ptypes.ErrRateLimited]. *)
Class Provider := {
  ProtocolSuffix : string;
  RPCGoodByeTopic : string;
  RPCMetaDataTopic : string;
  RPCPingTopic : string;
  RPCStatusTopic : string;
  RPCBlocksByRangeTopic : string;
  PeerString : string → string;
  responseCodeInvalidRequest : Z;
  ErrRateLimitedText : string;
}.

(** The interface of [github.com/kevinms/leakybucket-go] the limiter
    uses: [NewCollector rate capacity deleteEmptyBuckets], and on a
    collector [Remaining key], [Add key amount] (whose result the limiter
    drops) and [Free].  The wall clock the library reads is passed as
    [now]; the rates the limiter uses are whole numbers.  [Remaining]
    returns a Go [int64]. *)
Class Bucket := {
  Collector : Type;
  NewCollector : Z → Z → bool → Collector;
  Remaining : Z → Collector → string → Z;
  Add : Z → Collector → string → Z → Collector;
  Free : Collector → Collector;
  Remaining_int64 : ∀ now c key,
    - 2 ^ 63 ≤ Remaining now c key < 2 ^ 63;
}.

(** The part of a [network.Stream] the limiter reads: its protocol id and
    the peer at the other end; [stream_id] names the stream itself. *)
Record Stream := {
  stream_id : nat;
  Protocol : string;
  RemotePeer : string;
}.

(** Errors the limiter returns. *)
Inductive error :=
  | ErrLockNotHeld
  | ErrNoCollector (topic : string)
  | ErrRateLimited.

(** Calls the limiter makes on its collaborators, in program order. *)
Inductive event :=
  | Increment (pid : string)
  | WriteErrorResponse (code : Z) (reason : string) (sid : nat)
  | LogErrorf (topic : string)
  | CollectorFree (ptr : loc).

Global Instance error_eq_dec : EqDecision error.
Proof. solve_decision. Defined.

Global Instance event_eq_dec : EqDecision event.
Proof. solve_decision. Defined.

(** [sync.RWMutex], as far as the limiter and [mutexasserts] observe it. *)
Record RWMutex := {
  writer : bool;
  readers : nat;
}.

Definition RWMutexLocked (rw : RWMutex) : bool := writer rw.
Definition RWMutexRLocked (rw : RWMutex) : bool := bool_decide (0 < readers rw)%nat.

Definition unlocked : RWMutex := {| writer := false; readers := 0 |}.

(** Conversion [uint64(x)] of an [int64]. *)
Definition uint64 (x : Z) : Z := x mod 2 ^ 64.
Arguments uint64 : simpl never.

Definition defaultBurstLimit : Z := 5.
Definition rpcLimiterTopic : string := "rpc-limiter-topic".

Section limiter.
Context `{Provider} `{Bucket}.

(** Everything outside the limiter struct: the collectors by address, the
    allocation frontier, the clock, and the calls made so far. *)
Record world := {
  heap : loc → Collector;
  next : loc;
  now : Z;
  trace : list event;
}.

(** The [limiter] struct with the world it runs in. *)
Record state := {
  limiterMap : gmap string loc;
  mu : RWMutex;
  wd : world;
}.

Definition set_map (m : gmap string loc) (σ : state) : state :=
  {| limiterMap := m; mu := mu σ; wd := wd σ |}.
Definition set_mu (rw : RWMutex) (σ : state) : state :=
  {| limiterMap := limiterMap σ; mu := rw; wd := wd σ |}.
Definition set_wd (w : world) (σ : state) : state :=
  {| limiterMap := limiterMap σ; mu := mu σ; wd := w |}.
Definition set_heap (h : loc → Collector) (w : world) : world :=
  {| heap := h; next := next w; now := now w; trace := trace w |}.
Definition emit (e : event) (w : world) : world :=
  {| heap := heap w; next := next w; now := now w; trace := trace w ++ [e] |}.
Definition tick (d : Z) (w : world) : world :=
  {| heap := heap w; next := next w; now := now w + d; trace := trace w |}.

(** A method of the limiter: it may change the state, and [None] stands
    for a call that does not return: it waits for the mutex, or the
    runtime aborts on unlocking a mutex that is not locked. *)
Definition M (A : Type) : Type := state → option (A * state).

#[global] Instance M_ret : MRet M := λ A a σ, Some (a, σ).
#[global] Instance M_bind : MBind M := λ A B k m σ,
  match m σ with
  | Some (a, σ') => k a σ'
  | None => None
  end.

(** *** The mutex *)

Definition RLock : M unit := λ σ,
  if writer (mu σ) then None
  else Some (tt, set_mu {| writer := false; readers := S (readers (mu σ)) |} σ).

Definition RUnlock : M unit := λ σ,
  match readers (mu σ) with
  | O => None
  | S n => Some (tt, set_mu {| writer := writer (mu σ); readers := n |} σ)
  end.

Definition Lock : M unit := λ σ,
  if writer (mu σ) || bool_decide (0 < readers (mu σ))%nat then None
  else Some (tt, set_mu {| writer := true; readers := 0 |} σ).

Definition Unlock : M unit := λ σ,
  if writer (mu σ)
  then Some (tt, set_mu {| writer := false; readers := readers (mu σ) |} σ)
  else None.

(** [l.RLock(); defer l.RUnlock(); body]. *)
Definition RLock_defer {A} (body : M A) : M A :=
  RLock;; r ← body; RUnlock;; mret r.

(** [l.Lock(); defer l.Unlock(); body]. *)
Definition Lock_defer {A} (body : M A) : M A :=
  Lock;; r ← body; Unlock;; mret r.

(** *** Calls on the collaborators *)

Definition do_emit (e : event) : M unit := λ σ, Some (tt, set_wd (emit e (wd σ)) σ).

Definition collector_Remaining (c : loc) (key : string) : M Z := λ σ,
  Some (Remaining (now (wd σ)) (heap (wd σ) c) key, σ).

Definition collector_Add (c : loc) (key : string) (amt : Z) : M unit := λ σ,
  let w := wd σ in
  Some (tt, set_wd (set_heap (<[c := Add (now w) (heap w c) key amt]> (heap w)) w) σ).

Definition collector_Free (c : loc) : M unit := λ σ,
  let w := wd σ in
  Some (tt, set_wd (emit (CollectorFree c) (set_heap (<[c := Free (heap w c)]> (heap w)) w)) σ).

Definition writeErrorResponseToStream (code : Z) (reason : string) (stream : Stream) : M unit :=
  do_emit (WriteErrorResponse code reason (stream_id stream)).

(** *** rate_limiter.go *)

Definition addEncoding (topic : string) : string := topic +:+ ProtocolSuffix.

(** [leakybucket.NewCollector(...)]: a collector at a fresh address. *)
Definition alloc (c : Collector) (w : world) : loc * world :=
  (next w, {| heap := <[next w := c]> (heap w); next := S (next w);
              now := now w; trace := trace w |}).

Definition newRateLimiter (w : world) : state :=
  let topicMap : gmap string loc := ∅ in
  let '(c, w) := alloc (NewCollector 1 1 false) w in
  let topicMap := <[addEncoding RPCGoodByeTopic := c]> topicMap in
  let '(c, w) := alloc (NewCollector 1 defaultBurstLimit false) w in
  let topicMap := <[addEncoding RPCMetaDataTopic := c]> topicMap in
  let '(c, w) := alloc (NewCollector 1 defaultBurstLimit false) w in
  let topicMap := <[addEncoding RPCPingTopic := c]> topicMap in
  let '(c, w) := alloc (NewCollector 1 defaultBurstLimit false) w in
  let topicMap := <[addEncoding RPCStatusTopic := c]> topicMap in
  let '(blockCollector, w) := alloc (NewCollector 1 (defaultBurstLimit * 20) false) w in
  let topicMap := <[addEncoding RPCBlocksByRangeTopic := blockCollector]> topicMap in
  let '(c, w) := alloc (NewCollector 5 (defaultBurstLimit * 2) false) w in
  let topicMap := <[rpcLimiterTopic := c]> topicMap in
  {| limiterMap := topicMap; mu := unlocked; wd := w |}.

Definition retrieveCollector (topic : string) : M (loc + error) := λ σ,
  if negb (RWMutexLocked (mu σ)) && negb (RWMutexRLocked (mu σ))
  then Some (inr ErrLockNotHeld, σ)
  else match limiterMap σ !! topic with
       | None => Some (inr (ErrNoCollector topic), σ)
       | Some collector => Some (inl collector, σ)
       end.

Definition topicCollector (topic : string) : M (loc + error) :=
  RLock_defer (retrieveCollector topic).

Definition validateRequest (stream : Stream) (amt : Z) : M (option error) :=
  RLock_defer (
    let topic := Protocol stream in
    r ← retrieveCollector topic;
    match r with
    | inr err => mret (Some err)
    | inl collector =>
        let key := PeerString (RemotePeer stream) in
        remaining ← collector_Remaining collector key;
        let amt := if amt =? 0 then 1 else amt in
        if amt >? uint64 remaining then
          do_emit (Increment (RemotePeer stream));;
          writeErrorResponseToStream responseCodeInvalidRequest ErrRateLimitedText stream;;
          mret (Some ErrRateLimited)
        else mret None
    end).

Definition validateRawRpcRequest (stream : Stream) : M (option error) :=
  RLock_defer (
    let topic := rpcLimiterTopic in
    r ← retrieveCollector topic;
    match r with
    | inr err => mret (Some err)
    | inl collector =>
        let key := PeerString (RemotePeer stream) in
        remaining ← collector_Remaining collector key;
        let amt := 1 in
        if amt >? remaining then
          do_emit (Increment (RemotePeer stream));;
          writeErrorResponseToStream responseCodeInvalidRequest ErrRateLimitedText stream;;
          mret (Some ErrRateLimited)
        else mret None
    end).

Definition add (stream : Stream) (amt : Z) : M unit :=
  Lock_defer (
    let topic := Protocol stream in
    r ← retrieveCollector topic;
    match r with
    | inr err => do_emit (LogErrorf topic)
    | inl collector =>
        let key := PeerString (RemotePeer stream) in
        collector_Add collector key amt
    end).

Definition addRawStream (stream : Stream) : M unit :=
  Lock_defer (
    let topic := rpcLimiterTopic in
    r ← retrieveCollector topic;
    match r with
    | inr err => do_emit (LogErrorf topic)
    | inl collector =>
        let key := PeerString (RemotePeer stream) in
        collector_Add collector key 1
    end).

Definition delete_topic (t : string) : M unit := λ σ,
  Some (tt, set_map (delete t (limiterMap σ)) σ).

(** The body of the [range] loop of [free], over the entries in the order
    the runtime yields them.  Only the entry being visited is deleted, so
    the loop visits every entry of the map once. *)
Fixpoint free_range (entries : list (string * loc)) (tempMap : gmap loc bool) : M unit :=
  match entries with
  | [] => mret tt
  | (t, collector) :: rest =>
      let ptr := collector in
      if default false (tempMap !! ptr) then
        delete_topic t;;
        free_range rest tempMap
      else
        collector_Free collector;;
        delete_topic t;;
        free_range rest (<[ptr := true]> tempMap)
  end.

(** [free], with the iteration order of the map made explicit. *)
Definition free_in_order (entries : list (string * loc)) : M unit :=
  Lock_defer (free_range entries ∅).

Definition free : M unit := λ σ,
  free_in_order (map_to_list (limiterMap σ)) σ.

End limiter.

(** The general admission check as the specification words it: the
    per-topic check, run against the catch-all topic with cost 1. *)
Definition checkGeneralAdmission_spec `{Provider} `{Bucket} (stream : Stream) : M (option error) :=
  validateRequest
    {| stream_id := stream_id stream; Protocol := rpcLimiterTopic;
       RemotePeer := RemotePeer stream |} 1.

(** The remaining tokens a caller observes for [key] under [topic]:
    [topicCollector] followed by [Remaining] on the collector returned. *)
Definition observe_remaining `{Provider} `{Bucket} (topic key : string) : M (option Z) :=
  r ← topicCollector topic;
  match r with
  | inl collector => v ← collector_Remaining collector key; mret (Some v)
  | inr _ => mret None
  end.

(** The number of [Collector.Free] calls on the collector at [ptr]. *)
Definition count_Free (ptr : loc) (evs : list event) : nat :=
  length (filter (λ e, e = CollectorFree ptr) evs).

(** *** Use of a limiter by its callers *)

(** The calls a stream handler makes on a live limiter, and the passing
    of time between them. *)
Inductive call :=
  | CallTopicCollector (topic : string)
  | CallValidateRequest (stream : Stream) (amt : Z)
  | CallValidateRawRpcRequest (stream : Stream)
  | CallAdd (stream : Stream) (amt : Z)
  | CallAddRawStream (stream : Stream)
  | Elapse (d : Z).

Definition run_call `{Provider} `{Bucket} (c : call) : M unit :=
  match c with
  | CallTopicCollector topic => topicCollector topic;; mret tt
  | CallValidateRequest stream amt => validateRequest stream amt;; mret tt
  | CallValidateRawRpcRequest stream => validateRawRpcRequest stream;; mret tt
  | CallAdd stream amt => add stream amt
  | CallAddRawStream stream => addRawStream stream
  | Elapse d => λ σ, Some (tt, set_wd (tick d (wd σ)) σ)
  end.

(** The clock does not run backwards. *)
Definition forward (c : call) : Prop :=
  match c with
  | Elapse d => 0 ≤ d
  | _ => True
  end.

Fixpoint run_calls `{Provider} `{Bucket} (cs : list call) : M unit :=
  match cs with
  | [] => mret tt
  | c :: cs => run_call c;; run_calls cs
  end.

(** ** A reference collector

    The leaky bucket of the library with an integer clock (nanoseconds)
    and an integer rate.  A bucket is the time [p] at which it will have
    leaked empty; its count is the time left until [p] times the rate,
    rounded up; [Add] fills a bucket no further than the capacity. *)
Module leakybucket.

Definition int64 (x : Z) : Z := (x + 2 ^ 63) mod 2 ^ 64 - 2 ^ 63.

Record collector := {
  rate : Z;
  capacity : Z;
  buckets : gmap string Z;
}.

Definition second : Z := 1000000000.

Definition bucket_Count (now : Z) (c : collector) (p : Z) : Z :=
  if now <? p then ((p - now) * rate c + second - 1) / second else 0.

Definition Count (now : Z) (c : collector) (key : string) : Z :=
  match buckets c !! key with
  | None => 0
  | Some p => bucket_Count now c p
  end.

Definition Remaining (now : Z) (c : collector) (key : string) : Z :=
  int64 (capacity c - Count now c key).

Definition Add (now : Z) (c : collector) (key : string) (amount : Z) : collector :=
  let p := default now (buckets c !! key) in
  let count := bucket_Count now c p in
  if capacity c <=? count then
    {| rate := rate c; capacity := capacity c; buckets := <[key := p]> (buckets c) |}
  else
    let p := if now <? p then p else now in
    let remaining := capacity c - count in
    let amount := if remaining <? amount then remaining else amount in
    let t := (second * amount) ÷ rate c in
    {| rate := rate c; capacity := capacity c; buckets := <[key := p + t]> (buckets c) |}.

Definition Free (c : collector) : collector :=
  {| rate := rate c; capacity := capacity c; buckets := ∅ |}.

Definition NewCollector (rate capacity : Z) (deleteEmptyBuckets : bool) : collector :=
  {| rate := rate; capacity := capacity; buckets := ∅ |}.

(** A collector as calls at times up to [now] leave it: no bucket holds
    more than the capacity. *)
Definition good (now : Z) (c : collector) : Prop :=
  0 < rate c ∧ 0 ≤ capacity c < 2 ^ 63 ∧
  ∀ key p, buckets c !! key = Some p → (p - now) * rate c ≤ capacity c * second.

End leakybucket.

#[global] Instance reference_bucket : Bucket := {|
  Collector := leakybucket.collector;
  NewCollector := leakybucket.NewCollector;
  Remaining := leakybucket.Remaining;
  Add := leakybucket.Add;
  Free := leakybucket.Free;
  Remaining_int64 := λ now c key,
    ltac:(unfold leakybucket.Remaining, leakybucket.int64;
          pose proof (Z.mod_pos_bound
                        (leakybucket.capacity c - leakybucket.Count now c key + 2 ^ 63)
                        (2 ^ 64));
          lia);
|}.

(** A provider for the examples. *)
#[global] Instance sample_provider : Provider := {|
  ProtocolSuffix := "/ssz_snappy";
  RPCGoodByeTopic := "/carrier/req/goodbye/1";
  RPCMetaDataTopic := "/carrier/req/metadata/1";
  RPCPingTopic := "/carrier/req/ping/1";
  RPCStatusTopic := "/carrier/req/status/1";
  RPCBlocksByRangeTopic := "/carrier/req/blocks_by_range/1";
  PeerString := λ pid, pid;
  responseCodeInvalidRequest := 1;
  ErrRateLimitedText := "rate limited";
|}.

(** A limiter over the reference collector whose mutex is free and whose
    registered collectors are all [good] at the current time. *)
Definition kept (σ : state) : Prop :=
  mu σ = unlocked ∧
  ∀ topic c, limiterMap σ !! topic = Some c →
    leakybucket.good (now (wd σ)) (heap (wd σ) c).

(** What the specification asks of [validateRequest] on a stream whose
    topic resolves to collector [c]: above the remaining tokens, one
    [Increment] for the remote peer, then one error write on the stream,
    then [ErrRateLimited]; within them, nil and nothing else. *)
Definition penalises_once `{Provider} `{Bucket}
    (σ : state) (stream : Stream) (amt : Z) (c : loc) : Prop :=
  let remaining :=
    Remaining (now (wd σ)) (heap (wd σ) c) (PeerString (RemotePeer stream)) in
  let amt' := if amt =? 0 then 1 else amt in
  (remaining < amt' →
     ∃ σ', validateRequest stream amt σ = Some (Some ErrRateLimited, σ') ∧
       trace (wd σ') = trace (wd σ) ++
         [Increment (RemotePeer stream);
          WriteErrorResponse responseCodeInvalidRequest ErrRateLimitedText
            (stream_id stream)] ∧
       heap (wd σ') = heap (wd σ) ∧ limiterMap σ' = limiterMap σ ∧ mu σ' = mu σ)
  ∧ (amt' ≤ remaining → validateRequest stream amt σ = Some (None, σ)).

(** *** Sample states *)

Definition sample_world : world :=
  {| heap := λ _, leakybucket.NewCollector 1 1 false; next := 1; now := 0; trace := [] |}.

(** A freshly built limiter. *)
Definition sample_limiter : state := newRateLimiter sample_world.

(** A registry in which two block-request topics refer to the collector
    at address 1 and the ping topic to the one at address 2. *)
Definition sample_aliased : state :=
  {| limiterMap := <["/carrier/req/blocks_by_range/1/ssz_snappy" := 1%nat]>
                     (<["/carrier/req/blocks_by_root/1/ssz_snappy" := 1%nat]>
                        (<["/carrier/req/ping/1/ssz_snappy" := 2%nat]> ∅));
     mu := unlocked;
     wd := {| heap := λ a, if decide (a = 1%nat)
                          then leakybucket.NewCollector 1 100 false
                          else leakybucket.NewCollector 1 5 false;
              next := 3; now := 0; trace := [] |} |}.

Definition sample_goodbye : Stream :=
  {| stream_id := 7; Protocol := "/carrier/req/goodbye/1/ssz_snappy"; RemotePeer := "peerA" |}.

Definition sample_range : Stream :=
  {| stream_id := 8; Protocol := "/carrier/req/blocks_by_range/1/ssz_snappy";
     RemotePeer := "peerA" |}.

Definition sample_unknown : Stream :=
  {| stream_id := 9; Protocol := "/carrier/req/unknown/1/ssz_snappy"; RemotePeer := "peerA" |}.

Definition state_after {A} (m : M A) (σ : state) : state :=
  match m σ with
  | Some (_, σ') => σ'
  | None => σ
  end.

(** The fresh limiter once peerA has spent its goodbye token, and once
    it has been freed. *)
Definition sample_charged : state := state_after (add sample_goodbye 1) sample_limiter.
Definition sample_freed : state := state_after free sample_limiter.

(** ** Calls that may panic *)

(** A call returns a value or panics. *)
Inductive result (A : Type) :=
  | Returns (a : A)
  | Panics.
Arguments Returns {A} a.
Arguments Panics {A}.

#[global] Instance result_ret : MRet result := λ A a, Returns a.
#[global] Instance result_bind : MBind result := λ A B f m,
  match m with
  | Returns a => f a
  | Panics => Panics
  end.
#[global] Instance result_fmap : FMap result := λ A B f m,
  match m with
  | Returns a => Returns (f a)
  | Panics => Panics
  end.

(** [s[i]] for an [int] index: out of range, the runtime panics. *)
Definition index {A} (s : list A) (i : Z) : result A :=
  if i <? 0 then Panics
  else match s !! Z.to_nat i with
       | Some x => Returns x
       | None => Panics
       end.

(** [p.f] through a pointer: nil panics. *)
Definition deref {A} (p : option A) : result A :=
  match p with
  | Some a => Returns a
  | None => Panics
  end.

(** [for i, v := range l], from index [i], threading the loop state. *)
Fixpoint range_from {A St} (body : nat → A → St → result St) (i : nat) (l : list A) (s : St)
    : result St :=
  match l with
  | [] => Returns s
  | v :: l => s ← body i v s; range_from body (S i) l s
  end.

(** ** The [types] package: protobuf wrappers

    A [Resource] or [Task] is the struct behind a pointer that is not nil,
    with its [data] pointer, which may be nil ([None]); the [hash] and
    [size] caches play no part in the methods below.  The array types are
    slices of pointers to such structs, and any of these pointers may be
    nil ([None]). *)

Module Resource.
Section defs.
Context {ResourceData W pberror : Type}.
(** [libTypes.ResourceData.Marshal], on a receiver that may be nil,
    and [io.Writer.Write]. *)
Context (Marshal : option ResourceData → list byte * option pberror).
Context (Write : W → list byte → W).

Record Resource := { data : option ResourceData }.

Definition NewResource (data : option ResourceData) : Resource := {| data := data |}.

Definition EncodePb (m : Resource) (w : W) : W * option pberror :=
  let '(data, err) := Marshal (data m) in
  let w := match err with
           | Some _ => Write w data
           | None => w
           end in
  (w, err).

End defs.
Arguments Resource : clear implicits.
End Resource.

Module ResourceArray.
Section defs.
Context {ResourceData : Type}.

Definition Len (s : list (option (Resource.Resource ResourceData))) : nat := length s.

(** [v.data] reads through the element: on a nil one the call panics. *)
Definition To (s : list (option (Resource.Resource ResourceData)))
    : result (list (option ResourceData)) :=
  let arr := replicate (Len s) None in
  range_from (λ _ v arr, m ← deref v; mret (arr ++ [Resource.data m])) 0 s arr.

End defs.
End ResourceArray.

Module Task.
Section defs.
Context {TaskData W pberror : Type}.
(** [new(libTypes.TaskData)], [libTypes.TaskData.Marshal] and
    [io.Writer.Write]. *)
Context (new_TaskData : TaskData).
Context (Marshal : option TaskData → list byte * option pberror).
Context (Write : W → list byte → W).

Record Task := { data : option TaskData }.

Definition NewTask (data : option TaskData) : Task := {| data := data |}.

(** Returns the task as the call leaves it, the writer and the error. *)
Definition EncodePb (m : Task) (w : W) : Task * W * option pberror :=
  let m := match data m with
           | None => {| data := Some new_TaskData |}
           | Some _ => m
           end in
  let '(data, err) := Marshal (data m) in
  let w := match err with
           | None => Write w data
           | Some _ => w
           end in
  (m, w, err).

End defs.
Arguments Task : clear implicits.
End Task.

Module TaskDataArray.
Section defs.
Context {TaskData : Type}.

Definition Len (s : list (option (Task.Task TaskData))) : nat := length s.

Definition To (s : list (option (Task.Task TaskData))) : result (list (option TaskData)) :=
  let arr := [] in
  range_from (λ _ v arr, m ← deref v; mret (arr ++ [Task.data m])) 0 s arr.

End defs.
End TaskDataArray.

(** *** Sample data for the wrappers *)

(** A marshaller over [nat] payloads that fails on a nil receiver, and a
    writer that keeps the bytes written, as [bytes.Buffer] does. *)
Definition sample_Marshal (d : option nat) : list byte * option string :=
  match d with
  | Some n => ([Byte.x0a; default Byte.x00 (Byte.of_nat n)], None)
  | None => ([], Some "nil receiver")
  end.

Definition sample_Write (w data : list byte) : list byte := w ++ data.

(** ** The rest of the [types] package

    The methods of [Resource], [Task] and their arrays that read or write
    the caches, index the arrays or rebuild them. *)

(** [bytes.Buffer.Write]: the buffer grows by the bytes written. *)
Definition bytes_Buffer_Write (buffer data : list byte) : list byte := buffer ++ data.

(** What the wrappers take from [lib/types] and [common]: the protobuf
    payloads with their generated [Marshal] (on a receiver that may be
    nil) and [Unmarshal], the [TaskId] field of a [TaskData],
    [new(libTypes.TaskData)], the hash type and [protoBufHash].
    [Unmarshal] writes through its receiver: on one that is not nil it
    gives the payload as it leaves it; on a nil one it has nothing to
    write to, the pointer stays nil, and like any call it may panic. *)
Class Lib := {
  ResourceData : Type;
  TaskData : Type;
  pberror : Type;
  common_Hash : Type;
  ResourceData_Marshal : option ResourceData → list byte * option pberror;
  ResourceData_Unmarshal : ResourceData → list byte → result (ResourceData * option pberror);
  ResourceData_Unmarshal_nil : list byte → result (option pberror);
  TaskData_Marshal : option TaskData → list byte * option pberror;
  TaskData_Unmarshal : TaskData → list byte → result (TaskData * option pberror);
  TaskData_Unmarshal_nil : list byte → result (option pberror);
  TaskData_TaskId : TaskData → string;
  new_TaskData : TaskData;
  protoBufHash : list byte → common_Hash;
}.

(** The [Resource] and [Task] structs with their caches: [hash] and
    [size] are [atomic.Value]s, [None] until something is stored.  The
    size, a [common.StorageSize], is kept as the byte count it is made
    from. *)
Record cachedResource `{Lib} := {
  resource : Resource.Resource ResourceData;
  resource_hash : option common_Hash;
  resource_size : option nat;
}.

Record cachedTask `{Lib} := {
  task : Task.Task TaskData;
  task_hash : option common_Hash;
  task_size : option nat;
}.

Section wrappers.
Context `{Lib}.

(** [DecodePb] stores the size, then calls [Unmarshal] on the payload
    pointer.  When that panics so does [DecodePb], and [Panics] keeps
    nothing of the struct. *)
Definition Resource_DecodePb (m : cachedResource) (data : list byte)
    : result (cachedResource * option pberror) :=
  let size := Some (length data) in
  match Resource.data (resource m) with
  | Some d =>
      '(d, err) ← ResourceData_Unmarshal d data;
      mret ({| resource := {| Resource.data := Some d |};
               resource_hash := resource_hash m; resource_size := size |}, err)
  | None =>
      err ← ResourceData_Unmarshal_nil data;
      mret ({| resource := {| Resource.data := None |};
               resource_hash := resource_hash m; resource_size := size |}, err)
  end.

Definition Resource_Hash (m : cachedResource) : common_Hash * cachedResource :=
  match resource_hash m with
  | Some hash => (hash, m)
  | None =>
      let buffer := [] in
      let '(buffer, _) :=
        Resource.EncodePb ResourceData_Marshal bytes_Buffer_Write (resource m) buffer in
      let v := protoBufHash buffer in
      (v, {| resource := resource m; resource_hash := Some v;
             resource_size := resource_size m |})
  end.

Definition Task_DecodePb (m : cachedTask) (data : list byte)
    : result (cachedTask * option pberror) :=
  let size := Some (length data) in
  match Task.data (task m) with
  | Some d =>
      '(d, err) ← TaskData_Unmarshal d data;
      mret ({| task := {| Task.data := Some d |};
               task_hash := task_hash m; task_size := size |}, err)
  | None =>
      err ← TaskData_Unmarshal_nil data;
      mret ({| task := {| Task.data := None |};
               task_hash := task_hash m; task_size := size |}, err)
  end.

Definition Task_Hash (m : cachedTask) : common_Hash * cachedTask :=
  match task_hash m with
  | Some hash => (hash, m)
  | None =>
      let buffer := [] in
      let '(t, buffer, _) :=
        Task.EncodePb new_TaskData TaskData_Marshal bytes_Buffer_Write (task m) buffer in
      let v := protoBufHash buffer in
      (v, {| task := t; task_hash := Some v; task_size := task_size m |})
  end.

(** [m.data.TaskId] reads through the payload pointer. *)
Definition Task_TaskId (m : cachedTask) : result string :=
  d ← deref (Task.data (task m));
  mret (TaskData_TaskId d).

Definition Task_TaskData (m : cachedTask) : option TaskData := Task.data (task m).

(** *** The arrays *)

(** [s[i], s[j] = s[j], s[i]]: both elements are read, then [s[i]] and
    [s[j]] are written in this order.  The elements are pointers, nil or
    not, and are not read through. *)
Definition ResourceArray_Swap (s : list (option (Resource.Resource ResourceData))) (i j : Z)
    : result (list (option (Resource.Resource ResourceData))) :=
  x ← index s i;
  y ← index s j;
  mret (<[Z.to_nat j := x]> (<[Z.to_nat i := y]> s)).

Definition TaskDataArray_Swap (s : list (option (Task.Task TaskData))) (i j : Z)
    : result (list (option (Task.Task TaskData))) :=
  x ← index s i;
  y ← index s j;
  mret (<[Z.to_nat j := x]> (<[Z.to_nat i := y]> s)).

(** [s[i].EncodePb(buffer)]: [EncodePb] reads [m.data], so on a nil
    element the call panics. *)
Definition ResourceArray_GetPb (s : list (option (Resource.Resource ResourceData))) (i : Z)
    : result (list byte) :=
  p ← index s i;
  m ← deref p;
  let buffer := [] in
  let '(buffer, _) := Resource.EncodePb ResourceData_Marshal bytes_Buffer_Write m buffer in
  mret buffer.

(** A [TaskDataArray] holds pointers, and [EncodePb] writes through the
    one it is called on: here the array is the list of addresses, [None]
    for nil, and [h] the tasks at them, and the call gives back the bytes
    and the tasks as it leaves them.  On a nil element it panics. *)
Definition TaskDataArray_GetPb (h : loc → Task.Task TaskData) (s : list (option loc)) (i : Z)
    : result (list byte * (loc → Task.Task TaskData)) :=
  p ← index s i;
  p ← deref p;
  let buffer := [] in
  let '(m, buffer, _) :=
    Task.EncodePb new_TaskData TaskData_Marshal bytes_Buffer_Write (h p) buffer in
  mret (buffer, <[p := m]> h).

Definition NewTaskDataArray (metaData : list (option TaskData))
    : list (option (Task.Task TaskData)) :=
  let s := [] in
  fold_left (λ s v, s ++ [Some (Task.NewTask v)]) metaData s.

End wrappers.

(** *** Slices over a backing array

    [ResourceArray.Build] appends to its receiver, a copy of the caller's
    slice header that shares the caller's backing array.  A slice is kept
    here as the cells of that array from the slice's first element up to
    its capacity, with the slice's length. *)
Record slice (A : Type) := {
  cells : list A;
  len : nat;
}.
Arguments cells {A} s.
Arguments len {A} s.

(** [append(s, x)]: with room it writes the next cell of the same array;
    without, it moves the elements to a new array, with [spare] zero
    cells after them as the runtime sees fit, and [false] tells that the
    array is no longer the one the slice had. *)
Definition append {A} (zero : A) (spare : nat → nat) (s : slice A) (x : A) : slice A * bool :=
  if bool_decide (len s < length (cells s))%nat then
    ({| cells := <[len s := x]> (cells s); len := S (len s) |}, true)
  else
    ({| cells := take (len s) (cells s) ++ x :: replicate (spare (len s)) zero;
        len := S (len s) |}, false).

(** The loop of [Build]: the caller's array, the local slice, and whether
    the local slice still lives in the caller's array. *)
Definition Build_step `{Lib} (spare : nat → nat)
    (st : list (option (Resource.Resource ResourceData)) *
          slice (option (Resource.Resource ResourceData)) * bool)
    (v : option ResourceData) :=
  let '(caller, s, shared) := st in
  let '(s', same) := append None spare s (Some (Resource.NewResource v)) in
  ((if shared && same then cells s' else caller), s', shared && same).

(** [Build] returns its error; the other thing it leaves behind is the
    caller's backing array. *)
Definition ResourceArray_Build `{Lib} (spare : nat → nat)
    (s : slice (option (Resource.Resource ResourceData))) (metaData : list (option ResourceData))
    : list (option (Resource.Resource ResourceData)) * option pberror :=
  let '(caller, _, _) := fold_left (Build_step spare) metaData (cells s, s, true) in
  (caller, None).

(** ** The [TaskDetailShow] conversions

    A pointer is an [option] ([None] is nil), a slice an [option] of a
    list ([None] is the nil slice), and every function returns under
    [result], for it panics when it reads a field through a nil pointer. *)

(** What the conversions take from the rest of the package: the types
    they do not look into and the conversions of those. *)
Class ShowLib := {
  NodeAlias : Type;
  pb_NodeAlias : Type;
  ResourceUsage : Type;
  pb_ResourceUsage : Type;
  TaskOperationCost : Type;
  pb_TaskOperationCost : Type;
  ConvertNodeAliasToPB : option NodeAlias → result (option pb_NodeAlias);
  ConvertNodeAliasFromPB : option pb_NodeAlias → result (option NodeAlias);
  ConvertNodeAliasArrToPB :
    option (list (option NodeAlias)) → result (option (list (option pb_NodeAlias)));
  ConvertNodeAliasArrFromPB :
    option (list (option pb_NodeAlias)) → result (option (list (option NodeAlias)));
  ConvertResourceUsageToPB : option ResourceUsage → result (option pb_ResourceUsage);
  ConvertResourceUsageFromPB : option pb_ResourceUsage → result (option ResourceUsage);
  ConvertTaskOperationCostToPB :
    option TaskOperationCost → result (option pb_TaskOperationCost);
  ConvertTaskOperationCostFromPB :
    option pb_TaskOperationCost → result (option TaskOperationCost);
}.

Record TaskDataSupplierShow `{ShowLib} := {
  ds_MemberInfo : option NodeAlias;
  ds_MetaDataId : string;
  ds_MetaDataName : string;
}.

Record TaskPowerSupplierShow `{ShowLib} := {
  ps_MemberInfo : option NodeAlias;
  ps_ResourceUsage : option ResourceUsage;
}.

Record TaskDetailShow `{ShowLib} := {
  TaskId : string;
  TaskName : string;
  Owner : option NodeAlias;
  AlgoSupplier : option NodeAlias;
  DataSupplier : option (list (option TaskDataSupplierShow));
  PowerSupplier : option (list (option TaskPowerSupplierShow));
  Receivers : option (list (option NodeAlias));
  CreateAt : Z;
  StartAt : Z;
  EndAt : Z;
  State : string;
  OperationCost : option TaskOperationCost;
}.

(** The generated protobuf structs of package [pb]. *)
Module pb.

Record TaskDataSupplierShow `{ShowLib} := {
  ds_MemberInfo : option pb_NodeAlias;
  ds_MetaDataId : string;
  ds_MetaDataName : string;
}.

Record TaskPowerSupplierShow `{ShowLib} := {
  ps_MemberInfo : option pb_NodeAlias;
  ps_PowerInfo : option pb_ResourceUsage;
}.

Record TaskDetailShow `{ShowLib} := {
  TaskId : string;
  TaskName : string;
  Owner : option pb_NodeAlias;
  AlgoSupplier : option pb_NodeAlias;
  DataSupplier : option (list (option TaskDataSupplierShow));
  PowerSupplier : option (list (option TaskPowerSupplierShow));
  Receivers : option (list (option pb_NodeAlias));
  CreateAt : Z;
  StartAt : Z;
  EndAt : Z;
  State : string;
  OperationCost : option pb_TaskOperationCost;
}.

End pb.

Section conversions.
Context `{ShowLib}.

Definition ConvertTaskDataSupplierShowToPB (dataSupplier : option TaskDataSupplierShow)
    : result (option pb.TaskDataSupplierShow) :=
  d ← deref dataSupplier;
  memberInfo ← ConvertNodeAliasToPB (ds_MemberInfo d);
  mret (Some {| pb.ds_MemberInfo := memberInfo;
                pb.ds_MetaDataId := ds_MetaDataId d;
                pb.ds_MetaDataName := ds_MetaDataName d |}).

Definition ConvertTaskDataSupplierShowFromPB (dataSupplier : option pb.TaskDataSupplierShow)
    : result (option TaskDataSupplierShow) :=
  d ← deref dataSupplier;
  memberInfo ← ConvertNodeAliasFromPB (pb.ds_MemberInfo d);
  mret (Some {| ds_MemberInfo := memberInfo;
                ds_MetaDataId := pb.ds_MetaDataId d;
                ds_MetaDataName := pb.ds_MetaDataName d |}).

Definition ConvertTaskDataSupplierShowArrToPB
    (dataSuppliers : option (list (option TaskDataSupplierShow)))
    : result (option (list (option pb.TaskDataSupplierShow))) :=
  let dataSuppliers := default [] dataSuppliers in
  let arr := replicate (length dataSuppliers) None in
  arr ← range_from (λ i dataSupplier arr,
      d ← deref dataSupplier;
      memberInfo ← ConvertNodeAliasToPB (ds_MemberInfo d);
      let supplier := Some {| pb.ds_MemberInfo := memberInfo;
                              pb.ds_MetaDataId := ds_MetaDataId d;
                              pb.ds_MetaDataName := ds_MetaDataName d |} in
      mret (<[i := supplier]> arr)) 0 dataSuppliers arr;
  mret (Some arr).

Definition ConvertTaskDataSupplierShowArrFromPB
    (dataSuppliers : option (list (option pb.TaskDataSupplierShow)))
    : result (option (list (option TaskDataSupplierShow))) :=
  let dataSuppliers := default [] dataSuppliers in
  let arr := replicate (length dataSuppliers) None in
  arr ← range_from (λ i dataSupplier arr,
      d ← deref dataSupplier;
      memberInfo ← ConvertNodeAliasFromPB (pb.ds_MemberInfo d);
      let supplier := Some {| ds_MemberInfo := memberInfo;
                              ds_MetaDataId := pb.ds_MetaDataId d;
                              ds_MetaDataName := pb.ds_MetaDataName d |} in
      mret (<[i := supplier]> arr)) 0 dataSuppliers arr;
  mret (Some arr).

Definition ConvertTaskPowerSupplierShowShowToPB (powerSupplier : option TaskPowerSupplierShow)
    : result (option pb.TaskPowerSupplierShow) :=
  p ← deref powerSupplier;
  memberInfo ← ConvertNodeAliasToPB (ps_MemberInfo p);
  powerInfo ← ConvertResourceUsageToPB (ps_ResourceUsage p);
  mret (Some {| pb.ps_MemberInfo := memberInfo; pb.ps_PowerInfo := powerInfo |}).

Definition ConvertTaskPowerSupplierShowFromPB (powerSupplier : option pb.TaskPowerSupplierShow)
    : result (option TaskPowerSupplierShow) :=
  p ← deref powerSupplier;
  memberInfo ← ConvertNodeAliasFromPB (pb.ps_MemberInfo p);
  resourceUsage ← ConvertResourceUsageFromPB (pb.ps_PowerInfo p);
  mret (Some {| ps_MemberInfo := memberInfo; ps_ResourceUsage := resourceUsage |}).

Definition ConvertTaskPowerSupplierShowArrToPB
    (powerSuppliers : option (list (option TaskPowerSupplierShow)))
    : result (option (list (option pb.TaskPowerSupplierShow))) :=
  let powerSuppliers := default [] powerSuppliers in
  let arr := replicate (length powerSuppliers) None in
  arr ← range_from (λ i powerSupplier arr,
      p ← deref powerSupplier;
      memberInfo ← ConvertNodeAliasToPB (ps_MemberInfo p);
      powerInfo ← ConvertResourceUsageToPB (ps_ResourceUsage p);
      let supplier := Some {| pb.ps_MemberInfo := memberInfo;
                              pb.ps_PowerInfo := powerInfo |} in
      mret (<[i := supplier]> arr)) 0 powerSuppliers arr;
  mret (Some arr).

Definition ConvertTaskPowerSupplierShowArrFromPB
    (powerSuppliers : option (list (option pb.TaskPowerSupplierShow)))
    : result (option (list (option TaskPowerSupplierShow))) :=
  let powerSuppliers := default [] powerSuppliers in
  let arr := replicate (length powerSuppliers) None in
  arr ← range_from (λ i powerSupplier arr,
      p ← deref powerSupplier;
      memberInfo ← ConvertNodeAliasFromPB (pb.ps_MemberInfo p);
      resourceUsage ← ConvertResourceUsageFromPB (pb.ps_PowerInfo p);
      let supplier := Some {| ps_MemberInfo := memberInfo;
                              ps_ResourceUsage := resourceUsage |} in
      mret (<[i := supplier]> arr)) 0 powerSuppliers arr;
  mret (Some arr).

Definition ConvertTaskDetailShowToPB (task : option TaskDetailShow)
    : result (option pb.TaskDetailShow) :=
  t ← deref task;
  owner ← ConvertNodeAliasToPB (Owner t);
  algoSupplier ← ConvertNodeAliasToPB (AlgoSupplier t);
  dataSupplier ← ConvertTaskDataSupplierShowArrToPB (DataSupplier t);
  powerSupplier ← ConvertTaskPowerSupplierShowArrToPB (PowerSupplier t);
  receivers ← ConvertNodeAliasArrToPB (Receivers t);
  operationCost ← ConvertTaskOperationCostToPB (OperationCost t);
  mret (Some {| pb.TaskId := TaskId t;
                pb.TaskName := TaskName t;
                pb.Owner := owner;
                pb.AlgoSupplier := algoSupplier;
                pb.DataSupplier := dataSupplier;
                pb.PowerSupplier := powerSupplier;
                pb.Receivers := receivers;
                pb.CreateAt := CreateAt t;
                pb.StartAt := StartAt t;
                pb.EndAt := EndAt t;
                pb.State := State t;
                pb.OperationCost := operationCost |}).

Definition ConvertTaskDetailShowFromPB (task : option pb.TaskDetailShow)
    : result (option TaskDetailShow) :=
  t ← deref task;
  owner ← ConvertNodeAliasFromPB (pb.Owner t);
  algoSupplier ← ConvertNodeAliasFromPB (pb.AlgoSupplier t);
  dataSupplier ← ConvertTaskDataSupplierShowArrFromPB (pb.DataSupplier t);
  powerSupplier ← ConvertTaskPowerSupplierShowArrFromPB (pb.PowerSupplier t);
  receivers ← ConvertNodeAliasArrFromPB (pb.Receivers t);
  operationCost ← ConvertTaskOperationCostFromPB (pb.OperationCost t);
  mret (Some {| TaskId := pb.TaskId t;
                TaskName := pb.TaskName t;
                Owner := owner;
                AlgoSupplier := algoSupplier;
                DataSupplier := dataSupplier;
                PowerSupplier := powerSupplier;
                Receivers := receivers;
                CreateAt := pb.CreateAt t;
                StartAt := pb.StartAt t;
                EndAt := pb.EndAt t;
                State := pb.State t;
                OperationCost := operationCost |}).

End conversions.

(** What an array conversion does at the edges: the nil slice and the
    empty slice both come back as an empty slice that is not nil, a nil
    element makes it panic, and when it returns the slice it returns is
    not nil, is as long as its argument and holds no nil pointer. *)
Definition converts_slices {A B}
    (conv : option (list (option A)) → result (option (list (option B)))) : Prop :=
  conv None = Returns (Some [])
  ∧ conv (Some []) = Returns (Some [])
  ∧ (∀ s, None ∈ default [] s → conv s = Panics)
  ∧ (∀ s s', conv s = Returns s' →
       ∃ l', s' = Some l' ∧ length l' = length (default [] s) ∧ Forall is_Some l').

(** A sample of the outside conversions: every type a string, every
    conversion the identity. *)
#[global] Instance sample_show : ShowLib := {|
  NodeAlias := string;
  pb_NodeAlias := string;
  ResourceUsage := string;
  pb_ResourceUsage := string;
  TaskOperationCost := string;
  pb_TaskOperationCost := string;
  ConvertNodeAliasToPB := Returns;
  ConvertNodeAliasFromPB := Returns;
  ConvertNodeAliasArrToPB := Returns;
  ConvertNodeAliasArrFromPB := Returns;
  ConvertResourceUsageToPB := Returns;
  ConvertResourceUsageFromPB := Returns;
  ConvertTaskOperationCostToPB := Returns;
  ConvertTaskOperationCostFromPB := Returns;
|}.

(** A sample of [lib/types] over [nat] payloads: [Marshal] is
    [sample_Marshal]; [Unmarshal] reads back the two bytes it writes,
    fails on anything else and, on a nil receiver, panics unless there is
    nothing to read; the hash is the bytes themselves. *)
Definition sample_Unmarshal (d : nat) (data : list byte) : result (nat * option string) :=
  match data with
  | [tag; b] =>
      if Byte.eqb tag Byte.x0a then Returns (Byte.to_nat b, None)
      else Returns (d, Some "unknown field")
  | _ => Returns (d, Some "unexpected EOF")
  end.

Definition sample_Unmarshal_nil (data : list byte) : result (option string) :=
  match data with
  | [] => Returns None
  | _ => Panics
  end.

#[global] Instance sample_lib : Lib := {|
  ResourceData := nat;
  TaskData := nat;
  pberror := string;
  common_Hash := list byte;
  ResourceData_Marshal := sample_Marshal;
  ResourceData_Unmarshal := sample_Unmarshal;
  ResourceData_Unmarshal_nil := sample_Unmarshal_nil;
  TaskData_Marshal := sample_Marshal;
  TaskData_Unmarshal := sample_Unmarshal;
  TaskData_Unmarshal_nil := sample_Unmarshal_nil;
  TaskData_TaskId := λ n, if bool_decide (n = 0%nat) then "" else "task";
  new_TaskData := 0%nat;
  protoBufHash := λ bytes, bytes;
|}.

(** A limiter whose collectors hold a bucket filled past the capacity:
    peerA's bucket drains at time 5 s, the clock reads 0, and the
    capacity is 1. *)
Definition sample_overdrawn : state :=
  {| limiterMap := <[rpcLimiterTopic := 2%nat]>
                     (<["/carrier/req/goodbye/1/ssz_snappy" := 1%nat]> ∅);
     mu := unlocked;
     wd := {| heap := λ _, {| leakybucket.rate := 1; leakybucket.capacity := 1;
                              leakybucket.buckets := {["peerA" := 5000000000]} |};
              next := 3; now := 0; trace := [] |} |}.
(** * Properties of the rate limiter *)

Section limiter_facts.
Context `{Provider} `{Bucket}.

Ltac unfold_ops :=
  unfold checkGeneralAdmission_spec, observe_remaining, topicCollector,
    validateRequest, validateRawRpcRequest, add, addRawStream,
    free_in_order, RLock_defer, Lock_defer, retrieveCollector,
    writeErrorResponseToStream, do_emit, collector_Remaining, collector_Add,
    RLock, RUnlock, Lock, Unlock, RWMutexLocked, RWMutexRLocked,
    mbind, mret, M_bind, M_ret in *.

Lemma uint64_nonneg_int64 (x : Z) : 0 ≤ x < 2 ^ 63 → uint64 x = x.
Proof. intros Hx. unfold uint64. apply Z.mod_small. lia. Qed.

Lemma Remaining_uint64 now c key :
  0 ≤ Remaining now c key → uint64 (Remaining now c key) = Remaining now c key.
Proof.
  intros Hr. apply uint64_nonneg_int64.
  pose proof (Remaining_int64 now c key). lia.
Qed.

(** What [retrieveCollector] returns while the mutex is held. *)
Lemma retrieveCollector_held σ topic :
  RWMutexLocked (mu σ) || RWMutexRLocked (mu σ) = true →
  retrieveCollector topic σ =
    Some (match limiterMap σ !! topic with
          | Some collector => inl collector
          | None => inr (ErrNoCollector topic)
          end, σ).
Proof.
  intros Hheld. unfold retrieveCollector.
  destruct (RWMutexLocked (mu σ)), (RWMutexRLocked (mu σ)); simpl in *;
    try discriminate; by destruct (limiterMap σ !! topic).
Qed.

(** [validateRequest], run to completion. *)
Lemma validateRequest_eq σ stream amt :
  writer (mu σ) = false →
  validateRequest stream amt σ =
    Some (match limiterMap σ !! Protocol stream with
          | None => (Some (ErrNoCollector (Protocol stream)), σ)
          | Some c =>
              let remaining :=
                Remaining (now (wd σ)) (heap (wd σ) c) (PeerString (RemotePeer stream)) in
              if (if amt =? 0 then 1 else amt) >? uint64 remaining
              then (Some ErrRateLimited,
                    set_wd (emit (WriteErrorResponse responseCodeInvalidRequest
                                    ErrRateLimitedText (stream_id stream))
                              (emit (Increment (RemotePeer stream)) (wd σ))) σ)
              else (None, σ)
          end).
Proof.
  destruct σ as [m [wr rd] w]; simpl. intros ->. unfold_ops; simpl.
  destruct (m !! Protocol stream) as [c|]; simpl; [|done].
  by destruct (_ >? _).
Qed.

(** [validateRawRpcRequest], run to completion. *)
Lemma validateRawRpcRequest_eq σ stream :
  writer (mu σ) = false →
  validateRawRpcRequest stream σ =
    Some (match limiterMap σ !! rpcLimiterTopic with
          | None => (Some (ErrNoCollector rpcLimiterTopic), σ)
          | Some c =>
              let remaining :=
                Remaining (now (wd σ)) (heap (wd σ) c) (PeerString (RemotePeer stream)) in
              if 1 >? remaining
              then (Some ErrRateLimited,
                    set_wd (emit (WriteErrorResponse responseCodeInvalidRequest
                                    ErrRateLimitedText (stream_id stream))
                              (emit (Increment (RemotePeer stream)) (wd σ))) σ)
              else (None, σ)
          end).
Proof.
  destruct σ as [m [wr rd] w]; simpl. intros ->. unfold_ops; simpl.
  destruct (m !! rpcLimiterTopic) as [c|]; simpl; [|done].
  by destruct (_ >? _).
Qed.

(** [add] and [addRawStream], run to completion. *)
Lemma add_eq σ stream amt :
  mu σ = unlocked →
  add stream amt σ =
    Some (tt, match limiterMap σ !! Protocol stream with
              | None => set_wd (emit (LogErrorf (Protocol stream)) (wd σ)) σ
              | Some c =>
                  set_wd (set_heap
                    (<[c := Add (now (wd σ)) (heap (wd σ) c)
                              (PeerString (RemotePeer stream)) amt]> (heap (wd σ)))
                    (wd σ)) σ
              end).
Proof.
  destruct σ as [m rw w]; simpl. intros ->. unfold_ops; simpl.
  by destruct (m !! Protocol stream) as [c|].
Qed.

Lemma addRawStream_eq σ stream :
  mu σ = unlocked →
  addRawStream stream σ =
    Some (tt, match limiterMap σ !! rpcLimiterTopic with
              | None => set_wd (emit (LogErrorf rpcLimiterTopic) (wd σ)) σ
              | Some c =>
                  set_wd (set_heap
                    (<[c := Add (now (wd σ)) (heap (wd σ) c)
                              (PeerString (RemotePeer stream)) 1]> (heap (wd σ)))
                    (wd σ)) σ
              end).
Proof.
  destruct σ as [m rw w]; simpl. intros ->. unfold_ops; simpl.
  by destruct (m !! rpcLimiterTopic) as [c|].
Qed.

Lemma topicCollector_eq σ topic :
  writer (mu σ) = false →
  topicCollector topic σ =
    Some (match limiterMap σ !! topic with
          | Some collector => inl collector
          | None => inr (ErrNoCollector topic)
          end, σ).
Proof.
  destruct σ as [m [wr rd] w]; simpl. intros ->. unfold_ops; simpl.
  by destruct (m !! topic).
Qed.

(** The write lock is only obtained on a mutex nobody holds. *)
Lemma Lock_defer_returns {A} (body : M A) σ r σ' :
  Lock_defer body σ = Some (r, σ') → mu σ = unlocked.
Proof.
  destruct σ as [m [wr rd] w]. unfold_ops; simpl.
  destruct wr, rd; simpl; try done; intros _; reflexivity.
Qed.

Lemma RLock_defer_returns {A} (body : M A) σ r σ' :
  RLock_defer body σ = Some (r, σ') → writer (mu σ) = false.
Proof.
  destruct σ as [m [wr rd] w]. unfold_ops; simpl. by destruct wr.
Qed.

(** C6: for every stream and every state of the limiter and its buckets,
    [validateRequest] with a declared amount of 0 gives the same result
    and the same side effects (the same final state, trace included) as
    with a declared amount of 1; in general a call behaves as the call
    with the amount normalised, and 0 is the only amount that
    normalisation changes. *)
Theorem validateRequest_zero_is_one (σ : state) (stream : Stream) :
  validateRequest stream 0 σ = validateRequest stream 1 σ
  ∧ (∀ amt, validateRequest stream amt σ
            = validateRequest stream (if amt =? 0 then 1 else amt) σ)
  ∧ (∀ amt, (if amt =? 0 then 1 else amt) ≠ amt ↔ amt = 0).
Proof.
  split_and!.
  - reflexivity.
  - intros amt. destruct (Z.eqb_spec amt 0) as [->|Hne]; [reflexivity|].
    unfold validateRequest.
    by rewrite (proj2 (Z.eqb_neq amt 0) Hne).
  - intros amt. destruct (Z.eqb_spec amt 0) as [->|Hne]; [done|]. tauto.
Qed.

(** The two outcomes of [validateRequest] on a registered topic, for a
    bucket reading that is not negative. *)
Lemma validateRequest_outcomes (σ : state) (stream : Stream) (amt : Z) (c : loc) :
  writer (mu σ) = false →
  limiterMap σ !! Protocol stream = Some c →
  0 ≤ Remaining (now (wd σ)) (heap (wd σ) c) (PeerString (RemotePeer stream)) →
  penalises_once σ stream amt c.
Proof.
  intros Hw Hc Hpos. unfold penalises_once.
  rewrite (validateRequest_eq _ _ _ Hw), Hc; simpl.
  rewrite (Remaining_uint64 _ _ _ Hpos).
  set (remaining := Remaining _ _ _). set (amt' := if amt =? 0 then 1 else amt).
  split; intros Hcmp.
  - destruct (Z.gtb_spec amt' remaining) as [_|?]; [|lia].
    eexists; split; [done|]. simpl. by rewrite <- app_assoc.
  - destruct (Z.gtb_spec amt' remaining) as [?|_]; [lia|done].
Qed.

(** [validateRawRpcRequest] against the per-topic check on the catch-all
    topic with cost 1, for a bucket reading that is not negative. *)
Lemma validateRawRpcRequest_spec_eq (σ : state) (stream : Stream) :
  (∀ c, limiterMap σ !! rpcLimiterTopic = Some c →
        0 ≤ Remaining (now (wd σ)) (heap (wd σ) c) (PeerString (RemotePeer stream))) →
  validateRawRpcRequest stream σ = checkGeneralAdmission_spec stream σ
  ∧ ∀ topic,
      validateRawRpcRequest
        {| stream_id := stream_id stream; Protocol := topic;
           RemotePeer := RemotePeer stream |} σ
      = validateRawRpcRequest stream σ.
Proof.
  intros Hpos. split; [|done].
  unfold checkGeneralAdmission_spec.
  destruct (writer (mu σ)) eqn:Hw.
  - destruct σ as [m [wr rd] w]; simpl in *; subst wr. by unfold_ops.
  - rewrite (validateRawRpcRequest_eq _ _ Hw), (validateRequest_eq _ _ _ Hw); simpl.
    destruct (limiterMap σ !! rpcLimiterTopic) as [c|] eqn:Hc; [|done].
    simpl. by rewrite (Remaining_uint64 _ _ _ (Hpos c eq_refl)).
Qed.

(** Outside that range the two checks part: on a negative reading the
    conversion to [uint64] makes [validateRequest] admit any amount an
    [int64] holds, while the signed comparison of [validateRawRpcRequest]
    rejects. *)
Lemma negative_reading (σ : state) (stream : Stream) (amt : Z) (c c' : loc) :
  writer (mu σ) = false →
  limiterMap σ !! Protocol stream = Some c →
  limiterMap σ !! rpcLimiterTopic = Some c' →
  Remaining (now (wd σ)) (heap (wd σ) c) (PeerString (RemotePeer stream)) < 0 →
  Remaining (now (wd σ)) (heap (wd σ) c') (PeerString (RemotePeer stream)) < 0 →
  0 ≤ amt < 2 ^ 63 →
  validateRequest stream amt σ = Some (None, σ)
  ∧ fst <$> validateRawRpcRequest stream σ = Some (Some ErrRateLimited).
Proof.
  intros Hw Hc Hc' Hneg Hneg' Hamt.
  rewrite (validateRequest_eq _ _ _ Hw), (validateRawRpcRequest_eq _ _ Hw), Hc, Hc'; simpl.
  split.
  - pose proof (Remaining_int64 (now (wd σ)) (heap (wd σ) c)
                  (PeerString (RemotePeer stream))) as Hrange.
    assert (Hu : 2 ^ 63 ≤ uint64 (Remaining (now (wd σ)) (heap (wd σ) c)
                                     (PeerString (RemotePeer stream)))).
    { unfold uint64.
      rewrite <- (Z.mod_add _ 1) by lia. rewrite Z.mod_small; lia. }
    destruct (Z.gtb_spec (if amt =? 0 then 1 else amt)
                (uint64 (Remaining (now (wd σ)) (heap (wd σ) c)
                           (PeerString (RemotePeer stream))))) as [Hgt|]; [|done].
    destruct (amt =? 0); lia.
  - destruct (Z.gtb_spec 1 (Remaining (now (wd σ)) (heap (wd σ) c')
                             (PeerString (RemotePeer stream)))); [done | lia].
Qed.

(** C7, as amended: when the topic of the stream has no registry entry,
    [add] returns (it has no error result), only logs, and leaves every
    collector and the registry as they were, whereas [validateRequest]
    returns an error.  [validateRawRpcRequest] does not look at the topic
    of the stream: it returns an error of this kind exactly when its own
    topic, the catch-all one, has no entry, and while that topic is
    registered it answers nil or rate-limited as the reading of the
    catch-all collector has it. *)
Theorem unregistered_topic (σ : state) (stream : Stream) (amt : Z) :
  mu σ = unlocked →
  limiterMap σ !! Protocol stream = None →
  (∃ σ', add stream amt σ = Some (tt, σ') ∧
     heap (wd σ') = heap (wd σ) ∧ limiterMap σ' = limiterMap σ ∧
     trace (wd σ') = trace (wd σ) ++ [LogErrorf (Protocol stream)])
  ∧ validateRequest stream amt σ = Some (Some (ErrNoCollector (Protocol stream)), σ)
  ∧ (limiterMap σ !! rpcLimiterTopic = None →
     validateRawRpcRequest stream σ = Some (Some (ErrNoCollector rpcLimiterTopic), σ))
  ∧ (∀ c, limiterMap σ !! rpcLimiterTopic = Some c →
       let remaining :=
         Remaining (now (wd σ)) (heap (wd σ) c) (PeerString (RemotePeer stream)) in
       (1 ≤ remaining → validateRawRpcRequest stream σ = Some (None, σ))
       ∧ (remaining < 1 →
          ∃ σ', validateRawRpcRequest stream σ = Some (Some ErrRateLimited, σ'))).
Proof.
  intros Hmu Hnone.
  assert (Hw : writer (mu σ) = false) by by rewrite Hmu.
  split_and!.
  - rewrite (add_eq _ _ _ Hmu), Hnone. by eexists.
  - by rewrite (validateRequest_eq _ _ _ Hw), Hnone.
  - intros Hraw. by rewrite (validateRawRpcRequest_eq _ _ Hw), Hraw.
  - intros c Hc remaining. rewrite (validateRawRpcRequest_eq _ _ Hw), Hc. simpl.
    fold remaining. split; intros Hcmp.
    + destruct (Z.gtb_spec 1 remaining); [lia | done].
    + destruct (Z.gtb_spec 1 remaining); [by eauto | lia].
Qed.

(** C3: [retrieveCollector] returns the lock error, and no collector,
    whenever the mutex is held neither in read nor in write mode, and
    never returns it while the mutex is held; every public method takes
    the mutex first, so none of them ever yields that error: the checking
    methods never return it, [add] and [addRawStream] reach the collector
    of a registered topic instead of their error branch, [free] runs only
    once it holds the write lock; and from a free mutex every method
    returns. *)
Theorem lock_discipline :
  (∀ σ topic, RWMutexLocked (mu σ) = false → RWMutexRLocked (mu σ) = false →
     retrieveCollector topic σ = Some (inr ErrLockNotHeld, σ))
  ∧ (∀ σ topic, RWMutexLocked (mu σ) || RWMutexRLocked (mu σ) = true →
       fst <$> retrieveCollector topic σ ≠ Some (inr ErrLockNotHeld))
  ∧ (∀ σ topic r σ', topicCollector topic σ = Some (r, σ') → r ≠ inr ErrLockNotHeld)
  ∧ (∀ σ stream amt r σ',
       validateRequest stream amt σ = Some (r, σ') → r ≠ Some ErrLockNotHeld)
  ∧ (∀ σ stream r σ',
       validateRawRpcRequest stream σ = Some (r, σ') → r ≠ Some ErrLockNotHeld)
  ∧ (∀ σ stream amt c σ',
       add stream amt σ = Some (tt, σ') → limiterMap σ !! Protocol stream = Some c →
       trace (wd σ') = trace (wd σ) ∧
       heap (wd σ') c =
         Add (now (wd σ)) (heap (wd σ) c) (PeerString (RemotePeer stream)) amt)
  ∧ (∀ σ stream c σ',
       addRawStream stream σ = Some (tt, σ') → limiterMap σ !! rpcLimiterTopic = Some c →
       trace (wd σ') = trace (wd σ) ∧
       heap (wd σ') c =
         Add (now (wd σ)) (heap (wd σ) c) (PeerString (RemotePeer stream)) 1)
  ∧ (∀ σ entries σ', free_in_order entries σ = Some (tt, σ') → mu σ = unlocked)
  ∧ (∀ σ, mu σ = unlocked →
       (∀ topic, is_Some (topicCollector topic σ)) ∧
       (∀ stream amt, is_Some (validateRequest stream amt σ)) ∧
       (∀ stream, is_Some (validateRawRpcRequest stream σ)) ∧
       (∀ stream amt, is_Some (add stream amt σ)) ∧
       (∀ stream, is_Some (addRawStream stream σ))).
Proof.
  split_and!.
  - intros σ topic Hl Hr. unfold retrieveCollector. by rewrite Hl, Hr.
  - intros σ topic Hheld. rewrite (retrieveCollector_held _ _ Hheld). simpl.
    by destruct (limiterMap σ !! topic).
  - intros σ topic r σ' Hrun.
    rewrite (topicCollector_eq _ _ (RLock_defer_returns _ _ _ _ Hrun)) in Hrun.
    injection Hrun as <- _. by destruct (limiterMap σ !! topic).
  - intros σ stream amt r σ' Hrun.
    rewrite (validateRequest_eq _ _ _ (RLock_defer_returns _ _ _ _ Hrun)) in Hrun.
    destruct (limiterMap σ !! Protocol stream); simpl in Hrun;
      [destruct (_ >? _)|]; by injection Hrun as <- _.
  - intros σ stream r σ' Hrun.
    rewrite (validateRawRpcRequest_eq _ _ (RLock_defer_returns _ _ _ _ Hrun)) in Hrun.
    destruct (limiterMap σ !! rpcLimiterTopic); simpl in Hrun;
      [destruct (_ >? _)|]; by injection Hrun as <- _.
  - intros σ stream amt c σ' Hrun Hc.
    rewrite (add_eq _ _ _ (Lock_defer_returns _ _ _ _ Hrun)), Hc in Hrun.
    injection Hrun as <-. simpl. split; [done | by rewrite fn_lookup_insert].
  - intros σ stream c σ' Hrun Hc.
    rewrite (addRawStream_eq _ _ (Lock_defer_returns _ _ _ _ Hrun)), Hc in Hrun.
    injection Hrun as <-. simpl. split; [done | by rewrite fn_lookup_insert].
  - intros σ entries σ' Hrun. by eapply Lock_defer_returns.
  - intros σ Hmu.
    assert (Hw : writer (mu σ) = false) by by rewrite Hmu.
    repeat split.
    + intros topic. by rewrite topicCollector_eq.
    + intros stream amt. by rewrite validateRequest_eq.
    + intros stream. by rewrite validateRawRpcRequest_eq.
    + intros stream amt. by rewrite add_eq.
    + intros stream. by rewrite addRawStream_eq.
Qed.

(** The loop of [free] from any set [tm] of pointers already seen: it
    deletes the keys it visits and frees each pointer it meets that is
    not in [tm], once. *)
Lemma free_range_spec (es : list (string * loc)) : ∀ (tm : gmap loc bool) (σ : state),
  ∃ σ' evs,
    free_range es tm σ = Some (tt, σ') ∧ mu σ' = mu σ ∧
    (∀ t, limiterMap σ' !! t = if decide (t ∈ es.*1) then None else limiterMap σ !! t) ∧
    trace (wd σ') = trace (wd σ) ++ evs ∧
    (∀ p, count_Free p evs =
          if decide (p ∈ es.*2 ∧ default false (tm !! p) = false) then 1%nat else 0%nat) ∧
    (∀ p, heap (wd σ') p =
          if decide (p ∈ es.*2 ∧ default false (tm !! p) = false)
          then Free (heap (wd σ) p) else heap (wd σ) p).
Proof.
  induction es as [|[t c] rest IH]; intros tm σ.
  - exists σ, []. simpl. split_and!; try done.
    by rewrite app_nil_r.
  - simpl. destruct (default false (tm !! c)) eqn:Hseen.
    + unfold mbind, M_bind, delete_topic. simpl.
      destruct (IH tm (set_map (delete t (limiterMap σ)) σ))
        as (σ' & evs & Hrun & Hmu & Hmap & Htr & Hcnt & Hheap).
      assert (Hiff : ∀ p, (p ∈ c :: rest.*2 ∧ default false (tm !! p) = false)
                          ↔ (p ∈ rest.*2 ∧ default false (tm !! p) = false)).
      { intros p. rewrite elem_of_cons. split; [|tauto].
        intros [[->|Hin] Hp]; [congruence | done]. }
      exists σ', evs. simpl in *. split_and!; try done.
      * intros t0. rewrite Hmap. destruct (decide (t0 = t)) as [->|Hne].
        -- rewrite lookup_delete_eq. repeat case_decide; try done.
           all: exfalso; match goal with Hd : ¬ _ |- _ => apply Hd; left end.
        -- rewrite lookup_delete_ne by done. apply decide_ext.
           rewrite elem_of_cons. tauto.
      * intros p. rewrite Hcnt. symmetry. apply decide_ext, Hiff.
      * intros p. rewrite Hheap. symmetry. apply decide_ext, Hiff.
    + unfold mbind, M_bind, delete_topic, collector_Free. simpl.
      destruct (IH (<[c := true]> tm)
                  (set_map (delete t (limiterMap σ))
                     (set_wd (emit (CollectorFree c)
                        (set_heap (<[c := Free (heap (wd σ) c)]> (heap (wd σ))) (wd σ))) σ)))
        as (σ' & evs & Hrun & Hmu & Hmap & Htr & Hcnt & Hheap).
      assert (Hiff : ∀ p, p ≠ c →
                (p ∈ rest.*2 ∧ default false (<[c := true]> tm !! p) = false)
                ↔ (p ∈ c :: rest.*2 ∧ default false (tm !! p) = false)).
      { intros p Hne. rewrite elem_of_cons, lookup_insert_ne by done. tauto. }
      exists σ', (CollectorFree c :: evs). simpl in *. split_and!; try done.
      * intros t0. rewrite Hmap. destruct (decide (t0 = t)) as [->|Hne].
        -- rewrite lookup_delete_eq. repeat case_decide; try done.
           all: exfalso; match goal with Hd : ¬ _ |- _ => apply Hd; left end.
        -- rewrite lookup_delete_ne by done. apply decide_ext.
           rewrite elem_of_cons. tauto.
      * by rewrite Htr, <- app_assoc.
      * intros p. unfold count_Free in *. rewrite filter_cons. specialize (Hcnt p).
        destruct (decide (p = c)) as [->|Hne].
        -- rewrite decide_True by done. simpl. rewrite Hcnt.
           rewrite lookup_insert_eq. simpl.
           rewrite decide_False by (intros [_ ?]; done).
           rewrite decide_True; [done | split; [apply list_elem_of_here | done]].
        -- rewrite decide_False by congruence. rewrite Hcnt.
           by apply decide_ext, Hiff.
      * intros p. rewrite Hheap. destruct (decide (p = c)) as [->|Hne].
        -- rewrite lookup_insert_eq. simpl. rewrite fn_lookup_insert.
           rewrite decide_False by (intros [_ ?]; done).
           rewrite decide_True; [done | split; [apply list_elem_of_here | done]].
        -- rewrite fn_lookup_insert_ne by done.
           by apply decide_ext, Hiff.
Qed.

(** The loop calls nothing but [Collector.Free]. *)
Lemma free_range_events (es : list (string * loc)) : ∀ (tm : gmap loc bool) (σ σ' : state),
  free_range es tm σ = Some (tt, σ') →
  ∃ ptrs, trace (wd σ') = trace (wd σ) ++ (CollectorFree <$> ptrs).
Proof.
  induction es as [|[t c] rest IH]; intros tm σ σ' Hrun; simpl in Hrun.
  - injection Hrun as <-. exists []. by rewrite app_nil_r.
  - destruct (default false (tm !! c)).
    + apply IH in Hrun as [ptrs Htr]. by exists ptrs.
    + apply IH in Hrun as [ptrs Htr]. exists (c :: ptrs).
      rewrite Htr. simpl. by rewrite <- app_assoc.
Qed.

Lemma free_unfold σ : free σ = free_in_order (map_to_list (limiterMap σ)) σ.
Proof. reflexivity. Qed.

(** C1: whatever order the runtime yields the registry entries in, [free]
    returns with an empty registry and the mutex released, and the only
    calls it makes are [Collector.Free] calls: exactly one on every
    collector some topic key refers to, however many keys refer to it, and
    none on any other collector.  [free] itself is this run at the order
    [map_to_list] gives. *)
Theorem free_disposes_once (σ : state) (entries : list (string * loc)) :
  mu σ = unlocked →
  entries ≡ₚ map_to_list (limiterMap σ) →
  (∃ σ' ptrs,
    free_in_order entries σ = Some (tt, σ') ∧
    limiterMap σ' = ∅ ∧ mu σ' = unlocked ∧
    trace (wd σ') = trace (wd σ) ++ (CollectorFree <$> ptrs) ∧
    (∀ t p, limiterMap σ !! t = Some p →
       count_Free p (CollectorFree <$> ptrs) = 1%nat ∧
       heap (wd σ') p = Free (heap (wd σ) p)) ∧
    (∀ p, (∀ t, limiterMap σ !! t ≠ Some p) →
       count_Free p (CollectorFree <$> ptrs) = 0%nat ∧
       heap (wd σ') p = heap (wd σ) p))
  ∧ free σ = free_in_order (map_to_list (limiterMap σ)) σ.
Proof.
  intros Hmu Hperm. split; [|reflexivity].
  assert (Hkeys : ∀ t, t ∈ entries.*1 ↔ is_Some (limiterMap σ !! t)).
  { intros t. rewrite Hperm, list_elem_of_fmap. split.
    - intros ([t' p] & -> & Hin%elem_of_map_to_list). by exists p.
    - intros [p Hp]. exists (t, p). by rewrite elem_of_map_to_list. }
  assert (Hptrs : ∀ p, p ∈ entries.*2 ↔ ∃ t, limiterMap σ !! t = Some p).
  { intros p. rewrite Hperm, list_elem_of_fmap. split.
    - intros ([t p'] & -> & Hin%elem_of_map_to_list). by exists t.
    - intros [t Hp]. exists (t, p). by rewrite elem_of_map_to_list. }
  destruct σ as [m rw w]; simpl in *; subst rw.
  set (σ1 := {| limiterMap := m; mu := {| writer := true; readers := 0 |}; wd := w |}).
  destruct (free_range_spec entries ∅ σ1)
    as (σ' & evs & Hrun & Hmu & Hmap & Htr & Hcnt & Hheap).
  destruct (free_range_events _ _ _ _ Hrun) as [ptrs Hptrs'].
  assert (evs = CollectorFree <$> ptrs) as ->.
  { rewrite Htr in Hptrs'. by apply app_inv_head in Hptrs'. }
  destruct σ' as [m' rw' w']; simpl in *; subst rw'.
  exists {| limiterMap := m'; mu := unlocked; wd := w' |}, ptrs.
  split_and!; try done.
  - unfold free_in_order, Lock_defer, mbind, M_bind, Lock; simpl.
    change (set_mu _ _) with σ1. by rewrite Hrun.
  - apply map_eq. intros t. rewrite Hmap, lookup_empty.
    case_decide as Hin; [done|].
    rewrite Hkeys in Hin. by apply eq_None_not_Some.
  - intros t p Hp. rewrite Hcnt, Hheap.
    rewrite !decide_True; [done | |]; (split; [apply Hptrs; by exists t | done]).
  - intros p Hno. rewrite Hcnt, Hheap.
    rewrite !decide_False; [done | |]; intros [[t Ht]%Hptrs _]; by eapply Hno.
Qed.

(** A caller's reading of the remaining tokens, run to completion. *)
Lemma observe_remaining_eq σ topic key :
  writer (mu σ) = false →
  observe_remaining topic key σ =
    Some (match limiterMap σ !! topic with
          | Some c => Some (Remaining (now (wd σ)) (heap (wd σ) c) key)
          | None => None
          end, σ).
Proof.
  intros Hw. unfold observe_remaining, mbind, M_bind.
  rewrite (topicCollector_eq _ _ Hw).
  by destruct (limiterMap σ !! topic).
Qed.

(** The registry [newRateLimiter] builds. *)
Lemma newRateLimiter_map w :
  limiterMap (newRateLimiter w) =
    <[rpcLimiterTopic := (5 + next w)%nat]>
      (<[addEncoding RPCBlocksByRangeTopic := (4 + next w)%nat]>
        (<[addEncoding RPCStatusTopic := (3 + next w)%nat]>
          (<[addEncoding RPCPingTopic := (2 + next w)%nat]>
            (<[addEncoding RPCMetaDataTopic := (1 + next w)%nat]>
              (<[addEncoding RPCGoodByeTopic := next w]> ∅))))).
Proof. reflexivity. Qed.

Lemma newRateLimiter_mu w : mu (newRateLimiter w) = unlocked.
Proof. reflexivity. Qed.

(** Calls other than [free] return, and leave the registry and the mutex
    as they found them. *)
Lemma run_call_preserves c σ :
  mu σ = unlocked →
  ∃ σ', run_call c σ = Some (tt, σ') ∧ mu σ' = unlocked ∧ limiterMap σ' = limiterMap σ.
Proof.
  intros Hmu. assert (Hw : writer (mu σ) = false) by by rewrite Hmu.
  destruct c as [topic|stream amt|stream|stream amt|stream|d]; simpl;
    unfold mbind, M_bind.
  - rewrite (topicCollector_eq _ _ Hw). by eexists.
  - rewrite (validateRequest_eq _ _ _ Hw).
    destruct (limiterMap σ !! Protocol stream); simpl; [destruct (_ >? _)|]; by eexists.
  - rewrite (validateRawRpcRequest_eq _ _ Hw).
    destruct (limiterMap σ !! rpcLimiterTopic); simpl; [destruct (_ >? _)|]; by eexists.
  - rewrite (add_eq _ _ _ Hmu). by destruct (limiterMap σ !! Protocol stream); eexists.
  - rewrite (addRawStream_eq _ _ Hmu). by destruct (limiterMap σ !! rpcLimiterTopic); eexists.
  - by eexists.
Qed.

Lemma run_calls_preserves cs : ∀ σ,
  mu σ = unlocked →
  ∃ σ', run_calls cs σ = Some (tt, σ') ∧ mu σ' = unlocked ∧ limiterMap σ' = limiterMap σ.
Proof.
  induction cs as [|c cs IH]; intros σ Hmu; simpl.
  - by exists σ.
  - destruct (run_call_preserves c σ Hmu) as (σ1 & Hrun1 & Hmu1 & Hmap1).
    destruct (IH σ1 Hmu1) as (σ2 & Hrun2 & Hmu2 & Hmap2).
    exists σ2. unfold mbind, M_bind. rewrite Hrun1, Hrun2. split_and!; [done..|congruence].
Qed.

(** C8: after any sequence of calls other than [free] on a limiter made by
    [newRateLimiter], with any time passing in between, the catch-all topic
    is still registered; [validateRawRpcRequest] then returns nil or
    [ErrRateLimited], never an internal error, and [addRawStream] returns
    having charged the collector without logging an error. *)
Theorem catch_all_always_registered (w : world) (cs : list call) :
  ∃ σ, run_calls cs (newRateLimiter w) = Some (tt, σ) ∧
    mu σ = unlocked ∧
    limiterMap σ !! rpcLimiterTopic = Some (5 + next w)%nat ∧
    (∀ stream, ∃ r σ',
       validateRawRpcRequest stream σ = Some (r, σ') ∧
       (r = None ∨ r = Some ErrRateLimited)) ∧
    (∀ stream, ∃ σ',
       addRawStream stream σ = Some (tt, σ') ∧
       trace (wd σ') = trace (wd σ) ∧
       heap (wd σ') (5 + next w)%nat =
         Add (now (wd σ)) (heap (wd σ) (5 + next w)%nat)
           (PeerString (RemotePeer stream)) 1).
Proof.
  destruct (run_calls_preserves cs (newRateLimiter w) (newRateLimiter_mu w))
    as (σ & Hrun & Hmu & Hmap).
  assert (Hw : writer (mu σ) = false) by by rewrite Hmu.
  assert (Hrpc : limiterMap σ !! rpcLimiterTopic = Some (5 + next w)%nat).
  { rewrite Hmap, newRateLimiter_map. apply lookup_insert_eq. }
  exists σ. split_and!; try done.
  - intros stream. rewrite (validateRawRpcRequest_eq _ _ Hw), Hrpc. simpl.
    destruct (_ >? _); eauto.
  - intros stream. rewrite (addRawStream_eq _ _ Hmu), Hrpc.
    eexists; split_and!; [done..|]. simpl. by rewrite fn_lookup_insert.
Qed.

(** In the registry [newRateLimiter] builds every key has a collector of
    its own: no two keys refer to one collector. *)
Lemma newRateLimiter_no_alias w t1 t2 c :
  limiterMap (newRateLimiter w) !! t1 = Some c →
  limiterMap (newRateLimiter w) !! t2 = Some c →
  t1 = t2.
Proof.
  rewrite newRateLimiter_map. intros H1 H2.
  repeat (rewrite lookup_insert in H1; case_decide; simplify_eq);
  repeat (rewrite lookup_insert in H2; case_decide; simplify_eq);
  try lia; try done.
Qed.

(** Two keys that hold one collector address read one collector. *)
Lemma shared_collector_read (σ : state) (t1 t2 : string) (c : loc)
    (stream : Stream) (amt : Z) :
  mu σ = unlocked →
  limiterMap σ !! t1 = Some c →
  limiterMap σ !! t2 = Some c →
  Protocol stream = t1 →
  let key := PeerString (RemotePeer stream) in
  let charged := Add (now (wd σ)) (heap (wd σ) c) key amt in
  ∃ σ', add stream amt σ = Some (tt, σ') ∧
    fst <$> observe_remaining t2 key σ
      = Some (Some (Remaining (now (wd σ)) (heap (wd σ) c) key)) ∧
    fst <$> observe_remaining t2 key σ'
      = Some (Some (Remaining (now (wd σ)) charged key)) ∧
    (∀ d, fst <$> observe_remaining t2 key (set_wd (tick d (wd σ')) σ')
          = Some (Some (Remaining (now (wd σ) + d) charged key))) ∧
    (∀ d, fst <$> observe_remaining t2 key (set_wd (tick d (wd σ')) σ')
          = fst <$> observe_remaining t1 key (set_wd (tick d (wd σ')) σ')).
Proof.
  intros Hmu H1 H2 Hproto key charged.
  assert (Hw : writer (mu σ) = false) by by rewrite Hmu.
  rewrite (add_eq _ _ _ Hmu), Hproto, H1.
  eexists; split; [done|]. split_and!.
  - rewrite observe_remaining_eq by done. by rewrite H2.
  - rewrite observe_remaining_eq by done. simpl.
    rewrite H2. simpl. by rewrite fn_lookup_insert.
  - intros d. rewrite observe_remaining_eq by done. simpl.
    rewrite H2. simpl. by rewrite fn_lookup_insert.
  - intros d. rewrite !observe_remaining_eq by done. simpl. by rewrite H1, H2.
Qed.

(** The collector the range-request topic resolves to. *)
Lemma range_topic_collector (w : world) :
  addEncoding RPCBlocksByRangeTopic ≠ rpcLimiterTopic →
  limiterMap (newRateLimiter w) !! addEncoding RPCBlocksByRangeTopic
    = Some (4 + next w)%nat ∧
  heap (wd (newRateLimiter w)) (4 + next w)%nat
    = NewCollector 1 (defaultBurstLimit * 20) false.
Proof.
  intros Hne. split.
  - rewrite newRateLimiter_map, lookup_insert_ne by done. apply lookup_insert_eq.
  - simpl. rewrite fn_lookup_insert_ne by lia. apply fn_lookup_insert.
Qed.

End limiter_facts.

(** * The reference collector never reads negative *)

Module leakybucket_facts.
Import leakybucket.

Lemma bucket_Count_nonneg now c p : 0 < rate c → 0 ≤ bucket_Count now c p.
Proof.
  intros Hr. unfold bucket_Count, second.
  destruct (Z.ltb_spec now p); [|lia].
  apply Z.div_pos; nia.
Qed.

Lemma bucket_Count_le now c p :
  (p - now) * rate c ≤ capacity c * second → 0 ≤ capacity c →
  bucket_Count now c p ≤ capacity c.
Proof.
  intros Hp Hc. unfold bucket_Count, second in *.
  destruct (Z.ltb_spec now p); [|lia].
  apply Z.lt_succ_r, Z.div_lt_upper_bound; lia.
Qed.

Lemma bucket_Count_level now c p :
  0 < rate c → (Z.max p now - now) * rate c ≤ bucket_Count now c p * second.
Proof.
  intros Hr. unfold bucket_Count, second.
  destruct (Z.ltb_spec now p).
  - rewrite Z.max_l by lia.
    pose proof (Z.mul_succ_div_gt ((p - now) * rate c + 1000000000 - 1) 1000000000).
    lia.
  - rewrite Z.max_r by lia. lia.
Qed.

Lemma Remaining_nonneg now c key : good now c → 0 ≤ Remaining now c key.
Proof.
  intros (Hr & Hc & Hb). unfold Remaining, Count.
  assert (Hcount : 0 ≤ capacity c - match buckets c !! key with
                                     | Some p => bucket_Count now c p
                                     | None => 0
                                     end < 2 ^ 63).
  { destruct (buckets c !! key) as [p|] eqn:Hk; [|lia].
    pose proof (bucket_Count_nonneg now c p Hr).
    pose proof (bucket_Count_le now c p (Hb _ _ Hk)). lia. }
  unfold int64. rewrite Z.mod_small; lia.
Qed.

Lemma good_NewCollector now r cap del :
  0 < r → 0 ≤ cap < 2 ^ 63 → good now (NewCollector r cap del).
Proof.
  intros Hr Hc. split; [done|]. split; [done|].
  intros key p. simpl. by rewrite lookup_empty.
Qed.

Lemma good_later now now' c : good now c → now ≤ now' → good now' c.
Proof.
  intros (Hr & Hc & Hb) Hle. split; [done|]. split; [done|].
  intros key p Hk. specialize (Hb _ _ Hk). nia.
Qed.

Lemma good_Free now c : good now c → good now (Free c).
Proof.
  intros (Hr & Hc & Hb). split; [done|]. split; [done|].
  intros key p. simpl. by rewrite lookup_empty.
Qed.

Lemma good_Add now c key amount : good now c → good now (Add now c key amount).
Proof.
  intros (Hr & Hc & Hb). unfold Add.
  set (p := default now (buckets c !! key)).
  assert (Hp : (p - now) * rate c ≤ capacity c * second).
  { unfold p. destruct (buckets c !! key) as [p0|] eqn:Hk; simpl; [eauto|].
    unfold second. lia. }
  pose proof (bucket_Count_level now c p Hr) as Hlevel.
  destruct (Z.leb_spec (capacity c) (bucket_Count now c p)) as [Hfull|Hroom].
  - split; [done|]. split; [done|]. simpl. intros key' p'.
    rewrite lookup_insert. case_decide; [by intros [= <-] | eauto].
  - split; [done|]. split; [done|]. simpl. intros key' p'.
    rewrite lookup_insert. case_decide; [intros [= <-] | eauto].
    set (remaining := capacity c - bucket_Count now c p) in *.
    set (amount' := if remaining <? amount then remaining else amount).
    assert (Hamount : amount' ≤ remaining).
    { unfold amount'. destruct (Z.ltb_spec remaining amount); lia. }
    assert (Ht : (second * amount') ÷ rate c * rate c ≤ Z.max 0 (second * amount')).
    { destruct (Z.le_gt_cases 0 (second * amount')) as [Hpos|Hneg].
      - pose proof (Z.mul_quot_le (second * amount') (rate c) Hpos ltac:(lia)). lia.
      - assert ((second * amount') ÷ rate c ≤ 0).
        { apply Z.opp_nonneg_nonpos. rewrite <- Z.quot_opp_l by lia.
          apply Z.quot_pos; lia. }
        nia. }
    replace (if now <? p then p else now) with (Z.max p now)
      by (destruct (Z.ltb_spec now p); lia).
    unfold second in *. nia.
Qed.

(** With a rate that divides the second, as the rates 1 and 5 of the
    limiter do, a charge lowers the reading by the amount, or by what was
    left if that is less. *)
Lemma Remaining_Add now c key amount :
  good now c → (rate c | second) → 0 ≤ amount →
  Remaining now (Add now c key amount) key
  = Remaining now c key - Z.min amount (Remaining now c key).
Proof.
  intros Hgood [q Hq] Hamount.
  pose proof (Remaining_nonneg _ _ key (good_Add _ _ key amount Hgood)) as Hafter.
  pose proof (Remaining_nonneg _ _ key Hgood) as Hbefore.
  destruct Hgood as (Hr & Hc & Hb).
  assert (Hcount : Count now c key = bucket_Count now c (default now (buckets c !! key))).
  { unfold Count. destruct (buckets c !! key); simpl; [done|].
    unfold bucket_Count. by rewrite Z.ltb_irrefl. }
  assert (Hin : ∀ x, 0 ≤ x < 2 ^ 63 → int64 x = x).
  { intros x Hx. unfold int64. rewrite Z.mod_small; lia. }
  assert (Hle : Count now c key ≤ capacity c).
  { rewrite Hcount. apply bucket_Count_le; [|lia].
    destruct (buckets c !! key) as [p|] eqn:Hk; simpl; [eauto|]. unfold second. lia. }
  assert (Hge : 0 ≤ Count now c key).
  { rewrite Hcount. by apply bucket_Count_nonneg. }
  clear Hafter Hbefore.
  unfold Remaining. rewrite (Hin (capacity c - Count now c key)) by lia.
  rewrite Hcount in *. unfold Add.
  set (p := default now (buckets c !! key)) in *.
  set (n := bucket_Count now c p) in *.
  assert (Hsame : ∀ bs p0,
            Count now {| rate := rate c; capacity := capacity c;
                         buckets := <[key := p0]> bs |} key
            = bucket_Count now c p0).
  { intros bs p0. unfold Count. simpl. by rewrite lookup_insert_eq. }
  destruct (Z.leb_spec (capacity c) n) as [Hfull|Hroom]; simpl; rewrite Hsame.
  - fold n. rewrite Hin by lia. lia.
  - set (amount' := if capacity c - n <? amount then capacity c - n else amount).
    assert (Hamount' : amount' = Z.min amount (capacity c - n)).
    { unfold amount'. destruct (Z.ltb_spec (capacity c - n) amount); lia. }
    assert (Ht : (second * amount') ÷ rate c = q * amount').
    { rewrite Hq. replace (q * rate c * amount') with (q * amount' * rate c) by lia.
      apply Z.quot_mul. lia. }
    assert (Hq0 : 0 < q) by (unfold second in Hq; nia).
    rewrite Ht.
    assert (Hnew : bucket_Count now c ((if now <? p then p else now) + q * amount')
                   = n + amount').
    { unfold n, bucket_Count.
      destruct (Z.ltb_spec now p) as [Hlt|Hnlt].
      - rewrite (proj2 (Z.ltb_lt now (p + q * amount'))) by nia.
        replace ((p + q * amount' - now) * rate c + second - 1)
          with ((p - now) * rate c + second - 1 + amount' * second) by (rewrite Hq; lia).
        by rewrite Z.div_add by (unfold second; lia).
      - destruct (Z.ltb_spec now (now + q * amount')) as [Hpos|Hzero].
        + replace ((now + q * amount' - now) * rate c + second - 1)
            with (second - 1 + amount' * second) by (rewrite Hq; lia).
          rewrite Z.div_add by (unfold second; lia).
          rewrite Z.div_small by (unfold second; lia). lia.
        + nia. }
    rewrite Hnew. rewrite Hin by lia. lia.
Qed.

End leakybucket_facts.

(** * The limiter over the reference collector *)

Section reference_system.
Context `{Provider}.

Lemma kept_newRateLimiter (w : world) : kept (newRateLimiter w).
Proof.
  split; [done|]. intros topic c. rewrite newRateLimiter_map.
  repeat (rewrite lookup_insert; case_decide; [intros [= <-] | ]);
    [..| by rewrite lookup_empty]; simpl;
    repeat (rewrite fn_lookup_insert_ne by lia); rewrite fn_lookup_insert;
    apply leakybucket_facts.good_NewCollector; unfold defaultBurstLimit; lia.
Qed.

Lemma kept_reading (σ : state) topic c key :
  kept σ → limiterMap σ !! topic = Some c →
  0 ≤ Remaining (now (wd σ)) (heap (wd σ) c) key.
Proof. intros [_ Hgood] Hc. apply leakybucket_facts.Remaining_nonneg. eauto. Qed.

Lemma kept_run_call (c : call) (σ : state) :
  forward c → kept σ → ∃ σ', run_call c σ = Some (tt, σ') ∧ kept σ'.
Proof.
  intros Hfwd [Hmu Hgood]. assert (Hw : writer (mu σ) = false) by by rewrite Hmu.
  destruct c as [topic|stream amt|stream|stream amt|stream|d]; simpl;
    unfold mbind, M_bind.
  - rewrite (topicCollector_eq _ _ Hw). by eexists.
  - rewrite (validateRequest_eq _ _ _ Hw).
    destruct (limiterMap σ !! Protocol stream); simpl; [destruct (_ >? _)|]; by eexists.
  - rewrite (validateRawRpcRequest_eq _ _ Hw).
    destruct (limiterMap σ !! rpcLimiterTopic); simpl; [destruct (_ >? _)|]; by eexists.
  - rewrite (add_eq _ _ _ Hmu).
    destruct (limiterMap σ !! Protocol stream) as [a|] eqn:Ha; [|by eexists].
    eexists; split; [done|]. split; [done|]. simpl. intros topic c Hc.
    destruct (decide (c = a)) as [->|Hne].
    + rewrite fn_lookup_insert. apply leakybucket_facts.good_Add. eauto.
    + rewrite fn_lookup_insert_ne by done. eauto.
  - rewrite (addRawStream_eq _ _ Hmu).
    destruct (limiterMap σ !! rpcLimiterTopic) as [a|] eqn:Ha; [|by eexists].
    eexists; split; [done|]. split; [done|]. simpl. intros topic c Hc.
    destruct (decide (c = a)) as [->|Hne].
    + rewrite fn_lookup_insert. apply leakybucket_facts.good_Add. eauto.
    + rewrite fn_lookup_insert_ne by done. eauto.
  - eexists; split; [done|]. split; [done|]. simpl. intros topic c Hc.
    apply (leakybucket_facts.good_later (now (wd σ))); [eauto | simpl in Hfwd; lia].
Qed.

Lemma kept_run_calls (cs : list call) : ∀ σ : state,
  Forall forward cs → kept σ → ∃ σ', run_calls cs σ = Some (tt, σ') ∧ kept σ'.
Proof.
  induction cs as [|c cs IH]; intros σ Hfwd Hkept; simpl.
  - by exists σ.
  - apply Forall_cons in Hfwd as [Hc Hcs].
    destruct (kept_run_call c σ Hc Hkept) as (σ1 & Hrun1 & Hkept1).
    destruct (IH σ1 Hcs Hkept1) as (σ2 & Hrun2 & Hkept2).
    exists σ2. unfold mbind, M_bind. by rewrite Hrun1, Hrun2.
Qed.

End reference_system.

(** * Aliased topics *)

(** C2: when two distinct topic keys refer to one collector, a commit made
    under one key is read under the other.  Over any bucket
    implementation: after [add] on a stream of topic [t1], the remaining
    tokens observed for that peer under [t2], at once or any time [d]
    later, are those of the collector the commit charged, the same as
    observed under [t1], so that whenever the charge lowers the bucket's
    reading the reading under [t2] drops.  Over the reference collector,
    at a rate that divides the second: the reading under [t2] drops by
    the amount committed under [t1], or by what was left if that is
    less.  And in the registry [newRateLimiter] builds, the range-request
    topic resolves to the block collector, of capacity
    [defaultBurstLimit * 20]. *)
Theorem aliased_topics_share_pool :
  (∀ `{Provider} `{Bucket} (σ : state) (t1 t2 : string) (c : loc)
     (stream : Stream) (amt : Z),
     mu σ = unlocked →
     t1 ≠ t2 →
     limiterMap σ !! t1 = Some c →
     limiterMap σ !! t2 = Some c →
     Protocol stream = t1 →
     let key := PeerString (RemotePeer stream) in
     let charged := Add (now (wd σ)) (heap (wd σ) c) key amt in
     ∃ σ', add stream amt σ = Some (tt, σ') ∧
       (∀ d, fst <$> observe_remaining t2 key (set_wd (tick d (wd σ')) σ')
             = Some (Some (Remaining (now (wd σ) + d) charged key))) ∧
       (∀ d, fst <$> observe_remaining t2 key (set_wd (tick d (wd σ')) σ')
             = fst <$> observe_remaining t1 key (set_wd (tick d (wd σ')) σ')) ∧
       (Remaining (now (wd σ)) charged key < Remaining (now (wd σ)) (heap (wd σ) c) key →
        ∃ before after,
          fst <$> observe_remaining t2 key σ = Some (Some before) ∧
          fst <$> observe_remaining t2 key σ' = Some (Some after) ∧
          after < before))
  ∧ (∀ `{Provider} (σ : state) (t1 t2 : string) (c : loc) (stream : Stream) (amt : Z),
       mu σ = unlocked →
       t1 ≠ t2 →
       limiterMap σ !! t1 = Some c →
       limiterMap σ !! t2 = Some c →
       Protocol stream = t1 →
       leakybucket.good (now (wd σ)) (heap (wd σ) c) →
       (leakybucket.rate (heap (wd σ) c) | leakybucket.second) →
       0 ≤ amt →
       let key := PeerString (RemotePeer stream) in
       ∃ σ' before,
         add stream amt σ = Some (tt, σ') ∧
         fst <$> observe_remaining t2 key σ = Some (Some before) ∧
         fst <$> observe_remaining t2 key σ' = Some (Some (before - Z.min amt before)))
  ∧ (∀ `{Provider} `{Bucket} (w : world),
       addEncoding RPCBlocksByRangeTopic ≠ rpcLimiterTopic →
       ∃ blockCollector,
         limiterMap (newRateLimiter w) !! addEncoding RPCBlocksByRangeTopic
           = Some blockCollector ∧
         heap (wd (newRateLimiter w)) blockCollector
           = NewCollector 1 (defaultBurstLimit * 20) false).
Proof.
  split_and!.
  - intros P B σ t1 t2 c stream amt Hmu Hne H1 H2 Hproto key charged.
    destruct (shared_collector_read σ t1 t2 c stream amt Hmu H1 H2 Hproto)
      as (σ' & Hadd & Hbefore & Hafter & Hlater & Hsame).
    exists σ'. split_and!; [done..|]. intros Hlow.
    eexists _, _. split_and!; [exact Hbefore | exact Hafter | exact Hlow].
  - intros P σ t1 t2 c stream amt Hmu Hne H1 H2 Hproto Hgood Hdiv Hamt key.
    destruct (shared_collector_read σ t1 t2 c stream amt Hmu H1 H2 Hproto)
      as (σ' & Hadd & Hbefore & Hafter & Hlater & Hsame).
    exists σ', (Remaining (now (wd σ)) (heap (wd σ) c) key).
    split_and!; [done..|].
    etrans; [exact Hafter|]. do 2 f_equal.
    by apply leakybucket_facts.Remaining_Add.
  - intros P B w Hne. exists (4 + next w)%nat. by apply range_topic_collector.
Qed.

(** * Admission checks *)

(** C4: for a stream whose topic is registered, when the effective amount
    exceeds the peer's remaining tokens [validateRequest] makes exactly one
    [Increment] call for the remote peer and then exactly one error write
    on the stream, and returns [ErrRateLimited]; when the amount is within
    the remaining tokens it returns nil and leaves the state, trace
    included, as it was.  This holds over any bucket implementation in
    every state where the bucket's reading is not negative, and over the
    reference collector in every state a limiter made by [newRateLimiter]
    reaches through its methods other than [free]. *)
Theorem validateRequest_penalises_once :
  (∀ `{Provider} `{Bucket} (σ : state) (stream : Stream) (amt : Z) (c : loc),
     writer (mu σ) = false →
     limiterMap σ !! Protocol stream = Some c →
     0 ≤ Remaining (now (wd σ)) (heap (wd σ) c) (PeerString (RemotePeer stream)) →
     penalises_once σ stream amt c)
  ∧ (∀ `{Provider} (w : world) (cs : list call) (σ : state)
       (stream : Stream) (amt : Z) (c : loc),
       Forall forward cs →
       run_calls cs (newRateLimiter w) = Some (tt, σ) →
       limiterMap σ !! Protocol stream = Some c →
       penalises_once σ stream amt c).
Proof.
  split.
  - intros P B σ stream amt c Hw Hc Hpos. by apply validateRequest_outcomes.
  - intros P w cs σ stream amt c Hfwd Hrun Hc.
    destruct (kept_run_calls cs _ Hfwd (kept_newRateLimiter w)) as (σ' & Hrun' & Hkept).
    rewrite Hrun in Hrun'. injection Hrun' as <-.
    apply validateRequest_outcomes; [by rewrite (proj1 Hkept) | done |].
    by eapply kept_reading.
Qed.

(** C5: [validateRawRpcRequest] on any stream is the per-topic check run
    against the catch-all topic with cost 1, whatever the stream's own
    topic: same result, same penalty and error write, same final state.
    This holds over any bucket implementation in every state where the
    bucket's reading is not negative, and over the reference collector in
    every state a limiter made by [newRateLimiter] reaches through its
    methods other than [free]. *)
Theorem validateRawRpcRequest_is_general_check :
  (∀ `{Provider} `{Bucket} (σ : state) (stream : Stream),
     (∀ c, limiterMap σ !! rpcLimiterTopic = Some c →
           0 ≤ Remaining (now (wd σ)) (heap (wd σ) c) (PeerString (RemotePeer stream))) →
     validateRawRpcRequest stream σ = checkGeneralAdmission_spec stream σ
     ∧ ∀ topic,
         validateRawRpcRequest
           {| stream_id := stream_id stream; Protocol := topic;
              RemotePeer := RemotePeer stream |} σ
         = validateRawRpcRequest stream σ)
  ∧ (∀ `{Provider} (w : world) (cs : list call) (σ : state) (stream : Stream),
       Forall forward cs →
       run_calls cs (newRateLimiter w) = Some (tt, σ) →
       validateRawRpcRequest stream σ = checkGeneralAdmission_spec stream σ).
Proof.
  split.
  - intros P B σ stream Hpos. by apply validateRawRpcRequest_spec_eq.
  - intros P w cs σ stream Hfwd Hrun.
    destruct (kept_run_calls cs _ Hfwd (kept_newRateLimiter w)) as (σ' & Hrun' & Hkept).
    rewrite Hrun in Hrun'. injection Hrun' as <-.
    apply validateRawRpcRequest_spec_eq. intros c Hc. by eapply kept_reading.
Qed.

(** * Properties of the protobuf wrappers *)

Section types_facts.
Context {ResourceData TaskData W pberror : Type}.
Context (RMarshal : option ResourceData → list byte * option pberror).
Context (TMarshal : option TaskData → list byte * option pberror).
Context (new_TaskData : TaskData).
Context (Write : W → list byte → W).

(** The append loop of the two [To] methods. *)
Lemma append_loop {A B} (f : A → B) (s : list A) : ∀ arr : list B,
  fold_left (λ arr v, arr ++ [f v]) s arr = arr ++ (f <$> s).
Proof.
  induction s as [|v s IH]; intros arr; simpl.
  - by rewrite app_nil_r.
  - by rewrite IH, <- app_assoc.
Qed.

(** C9: [Resource.EncodePb] passes the marshalled bytes to the writer only
    when [Marshal] returns an error, and returns that error; when
    marshalling succeeds it leaves the writer untouched and returns nil.
    [Task.EncodePb] does the opposite: it writes exactly when [Marshal]
    succeeds. *)
Theorem Resource_EncodePb_writes_on_error
    (m : Resource.Resource ResourceData) (t : Task.Task TaskData) (w : W) :
  let r := RMarshal (Resource.data m) in
  let t' := Task.NewTask (Some (default new_TaskData (Task.data t))) in
  let r' := TMarshal (Task.data t') in
  (r.2 = None → Resource.EncodePb RMarshal Write m w = (w, None))
  ∧ (∀ e, r.2 = Some e →
       Resource.EncodePb RMarshal Write m w = (Write w r.1, Some e))
  ∧ (r'.2 = None →
       Task.EncodePb new_TaskData TMarshal Write t w = (t', Write w r'.1, None))
  ∧ (∀ e, r'.2 = Some e →
       Task.EncodePb new_TaskData TMarshal Write t w = (t', w, Some e)).
Proof.
  unfold Resource.EncodePb, Task.EncodePb. destruct m as [d], t as [d']; simpl.
  split_and!.
  - destruct (RMarshal d) as [bytes err]; simpl. by intros ->.
  - intros e. destruct (RMarshal d) as [bytes err]; simpl. by intros ->.
  - destruct d' as [td|]; simpl; destruct (TMarshal _) as [bytes err]; simpl; by intros ->.
  - intros e.
    destruct d' as [td|]; simpl; destruct (TMarshal _) as [bytes err]; simpl; by intros ->.
Qed.

(** The loop of the two [To] methods over pointers none of which is
    nil, and over pointers one of which is. *)
Lemma To_loop_Returns {A B} (f : A → B) (rs : list A) : ∀ (i : nat) (arr : list B),
  range_from (λ _ v arr, m ← deref v; mret (arr ++ [f m])) i (Some <$> rs) arr
  = Returns (arr ++ (f <$> rs)).
Proof.
  induction rs as [|r rs IH]; intros i arr; simpl.
  - by rewrite app_nil_r.
  - by rewrite IH, <- app_assoc.
Qed.

Lemma To_loop_Panics {A B} (f : A → B) (s : list (option A)) : ∀ (i : nat) (arr : list B),
  None ∈ s →
  range_from (λ _ v arr, m ← deref v; mret (arr ++ [f m])) i s arr = Panics.
Proof.
  induction s as [|v s IH]; intros i arr Hin; [by apply elem_of_nil in Hin|].
  destruct v as [m|]; simpl; [|done].
  apply IH. apply elem_of_cons in Hin as [?|?]; done.
Qed.

(** A slice of pointers holds a nil one, or is a slice of structs. *)
Lemma nil_or_all_Some {A} (s : list (option A)) :
  None ∈ s ∨ ∃ rs, s = Some <$> rs.
Proof.
  induction s as [|[m|] s [Hnil|[rs ->]]].
  - right. by exists [].
  - left. apply elem_of_cons. by right.
  - right. by exists (m :: rs).
  - left. apply elem_of_cons. by left.
  - left. apply elem_of_cons. by left.
Qed.

Lemma Some_fmap_no_nil {A} (rs : list A) : None ∉ (Some <$> rs).
Proof. by intros (r & ? & _)%list_elem_of_fmap. Qed.

(** C10, as amended: on a [ResourceArray] [s] none of whose elements is
    nil, [To] returns [Len s] nil pointers followed by the data pointers
    of [s] in order, [2 * Len s] elements in all, whereas
    [TaskDataArray.To] returns just the [Len s] data pointers; on an array
    with a nil element, and on no other, each of the two panics. *)
Theorem ResourceArray_To_doubles
    (s : list (option (Resource.Resource ResourceData)))
    (s' : list (option (Task.Task TaskData))) :
  (∀ rs, s = Some <$> rs →
     ResourceArray.To s
     = Returns (replicate (ResourceArray.Len s) None ++ (Resource.data <$> rs)))
  ∧ (∀ arr, ResourceArray.To s = Returns arr →
       ∃ rs, s = Some <$> rs
         ∧ length arr = (2 * ResourceArray.Len s)%nat
         ∧ take (ResourceArray.Len s) arr = replicate (ResourceArray.Len s) None
         ∧ drop (ResourceArray.Len s) arr = Resource.data <$> rs)
  ∧ (ResourceArray.To s = Panics ↔ None ∈ s)
  ∧ (∀ ts, s' = Some <$> ts → TaskDataArray.To s' = Returns (Task.data <$> ts))
  ∧ (∀ arr, TaskDataArray.To s' = Returns arr →
       ∃ ts, s' = Some <$> ts ∧ arr = Task.data <$> ts
         ∧ length arr = TaskDataArray.Len s')
  ∧ (TaskDataArray.To s' = Panics ↔ None ∈ s').
Proof.
  unfold ResourceArray.To, TaskDataArray.To, ResourceArray.Len, TaskDataArray.Len.
  split_and!.
  - intros rs ->. by rewrite To_loop_Returns.
  - intros arr Harr. destruct (nil_or_all_Some s) as [Hnil|[rs ->]].
    + by rewrite (To_loop_Panics Resource.data s _ _ Hnil) in Harr.
    + rewrite To_loop_Returns in Harr. injection Harr as <-.
      exists rs. rewrite length_fmap. split_and!; [done | | |].
      * rewrite length_app, length_replicate, length_fmap. lia.
      * rewrite take_app_length'; [done | by rewrite length_replicate].
      * rewrite drop_app_length'; [done | by rewrite length_replicate].
  - split.
    + intros Hpanics. destruct (nil_or_all_Some s) as [Hnil|[rs ->]]; [done|].
      by rewrite To_loop_Returns in Hpanics.
    + intros Hnil. by apply To_loop_Panics.
  - intros ts ->. by rewrite To_loop_Returns.
  - intros arr Harr. destruct (nil_or_all_Some s') as [Hnil|[ts ->]].
    + by rewrite (To_loop_Panics Task.data s' _ _ Hnil) in Harr.
    + rewrite To_loop_Returns in Harr. injection Harr as <-.
      exists ts. by rewrite !length_fmap.
  - split.
    + intros Hpanics. destruct (nil_or_all_Some s') as [Hnil|[ts ->]]; [done|].
      by rewrite To_loop_Returns in Hpanics.
    + intros Hnil. by apply To_loop_Panics.
Qed.

End types_facts.

(** * Further properties of the rate limiter *)

Section limiter_more.
Context `{Provider} `{Bucket}.

(** A check reads the clock, the registry and the collectors, nothing
    else. *)
Lemma validateRequest_view (σ1 σ2 : state) stream amt :
  mu σ1 = mu σ2 → limiterMap σ1 = limiterMap σ2 →
  heap (wd σ1) = heap (wd σ2) → now (wd σ1) = now (wd σ2) →
  fst <$> validateRequest stream amt σ1 = fst <$> validateRequest stream amt σ2.
Proof.
  intros Hmu Hmap Hheap Hnow. destruct (writer (mu σ1)) eqn:Hw.
  - assert (Hw2 : writer (mu σ2) = true) by by rewrite <- Hmu.
    destruct σ1 as [m1 [wr1 rd1] w1], σ2 as [m2 [wr2 rd2] w2]; simpl in *; subst.
    by unfold validateRequest, RLock_defer, mbind, M_bind, RLock.
  - assert (Hw2 : writer (mu σ2) = false) by by rewrite <- Hmu.
    rewrite !validateRequest_eq by done. simpl. rewrite Hmap, Hheap, Hnow.
    destruct (limiterMap σ2 !! Protocol stream); [|done]. by destruct (_ >? _).
Qed.

Lemma validateRawRpcRequest_view (σ1 σ2 : state) stream :
  mu σ1 = mu σ2 → limiterMap σ1 = limiterMap σ2 →
  heap (wd σ1) = heap (wd σ2) → now (wd σ1) = now (wd σ2) →
  fst <$> validateRawRpcRequest stream σ1 = fst <$> validateRawRpcRequest stream σ2.
Proof.
  intros Hmu Hmap Hheap Hnow. destruct (writer (mu σ1)) eqn:Hw.
  - assert (Hw2 : writer (mu σ2) = true) by by rewrite <- Hmu.
    destruct σ1 as [m1 [wr1 rd1] w1], σ2 as [m2 [wr2 rd2] w2]; simpl in *; subst.
    by unfold validateRawRpcRequest, RLock_defer, mbind, M_bind, RLock.
  - assert (Hw2 : writer (mu σ2) = false) by by rewrite <- Hmu.
    rewrite !validateRawRpcRequest_eq by done. simpl. rewrite Hmap, Hheap, Hnow.
    destruct (limiterMap σ2 !! rpcLimiterTopic); [|done]. by destruct (_ >? _).
Qed.

(** What a check leaves behind: the state it found, or that state with
    the penalty and the error write appended to the trace. *)
Lemma validateRequest_leaves (σ σ' : state) stream amt r :
  validateRequest stream amt σ = Some (r, σ') →
  mu σ' = mu σ ∧ limiterMap σ' = limiterMap σ ∧
  heap (wd σ') = heap (wd σ) ∧ now (wd σ') = now (wd σ) ∧
  (trace (wd σ') = trace (wd σ) ∨
   trace (wd σ') = trace (wd σ) ++
     [Increment (RemotePeer stream);
      WriteErrorResponse responseCodeInvalidRequest ErrRateLimitedText (stream_id stream)]).
Proof.
  intros Hrun.
  rewrite (validateRequest_eq _ _ _ (RLock_defer_returns _ _ _ _ Hrun)) in Hrun.
  destruct (limiterMap σ !! Protocol stream); simpl in Hrun;
    [destruct (_ >? _)|]; injection Hrun as <- <-; split_and!; try done; auto.
  right. simpl. by rewrite <- app_assoc.
Qed.

Lemma validateRawRpcRequest_leaves (σ σ' : state) stream r :
  validateRawRpcRequest stream σ = Some (r, σ') →
  mu σ' = mu σ ∧ limiterMap σ' = limiterMap σ ∧
  heap (wd σ') = heap (wd σ) ∧ now (wd σ') = now (wd σ) ∧
  (trace (wd σ') = trace (wd σ) ∨
   trace (wd σ') = trace (wd σ) ++
     [Increment (RemotePeer stream);
      WriteErrorResponse responseCodeInvalidRequest ErrRateLimitedText (stream_id stream)]).
Proof.
  intros Hrun.
  rewrite (validateRawRpcRequest_eq _ _ (RLock_defer_returns _ _ _ _ Hrun)) in Hrun.
  destruct (limiterMap σ !! rpcLimiterTopic); simpl in Hrun;
    [destruct (_ >? _)|]; injection Hrun as <- <-; split_and!; try done; auto.
  right. simpl. by rewrite <- app_assoc.
Qed.

(** X1: a check consumes nothing.  Whatever [validateRequest] or
    [validateRawRpcRequest] answers, it leaves every collector, the
    registry and the mutex as it found them, so any check made next, at the
    same time, on any stream and for any amount, is answered as it would
    have been without the first one. *)
Theorem checks_consume_nothing (σ σ' : state) (stream : Stream) (amt : Z) (r : option error) :
  validateRequest stream amt σ = Some (r, σ') ∨
  validateRawRpcRequest stream σ = Some (r, σ') →
  heap (wd σ') = heap (wd σ) ∧ limiterMap σ' = limiterMap σ ∧ mu σ' = mu σ
  ∧ (∀ stream2 amt2,
       fst <$> validateRequest stream2 amt2 σ' = fst <$> validateRequest stream2 amt2 σ)
  ∧ (∀ stream2,
       fst <$> validateRawRpcRequest stream2 σ' = fst <$> validateRawRpcRequest stream2 σ).
Proof.
  intros Hrun.
  assert (mu σ' = mu σ ∧ limiterMap σ' = limiterMap σ ∧
          heap (wd σ') = heap (wd σ) ∧ now (wd σ') = now (wd σ))
    as (Hmu & Hmap & Hheap & Hnow).
  { destruct Hrun as [Hrun|Hrun].
    - apply validateRequest_leaves in Hrun. tauto.
    - apply validateRawRpcRequest_leaves in Hrun. tauto. }
  split_and!; [done..| |].
  - intros stream2 amt2. by apply validateRequest_view.
  - intros stream2. by apply validateRawRpcRequest_view.
Qed.

(** X2: the topics of a limiter made by [newRateLimiter] do not share.
    In any state it reaches through its methods other than [free], no two
    keys hold one collector, and a commit, [add] on any stream or
    [addRawStream], leaves the tokens read under every other key, for
    every peer, as they were. *)
Theorem topics_do_not_interfere (w : world) (cs : list call) (σ : state)
    (stream : Stream) (amt : Z) :
  run_calls cs (newRateLimiter w) = Some (tt, σ) →
  (∀ t1 t2 c, limiterMap σ !! t1 = Some c → limiterMap σ !! t2 = Some c → t1 = t2)
  ∧ (∃ σ', add stream amt σ = Some (tt, σ') ∧
       ∀ topic key, topic ≠ Protocol stream →
         fst <$> observe_remaining topic key σ' = fst <$> observe_remaining topic key σ)
  ∧ (∃ σ', addRawStream stream σ = Some (tt, σ') ∧
       ∀ topic key, topic ≠ rpcLimiterTopic →
         fst <$> observe_remaining topic key σ' = fst <$> observe_remaining topic key σ).
Proof.
  intros Hrun.
  destruct (run_calls_preserves cs _ (newRateLimiter_mu w)) as (σ0 & Hrun0 & Hmu & Hmap).
  rewrite Hrun in Hrun0. injection Hrun0 as <-.
  assert (Hw : writer (mu σ) = false) by by rewrite Hmu.
  assert (Halias : ∀ t1 t2 c,
            limiterMap σ !! t1 = Some c → limiterMap σ !! t2 = Some c → t1 = t2).
  { intros t1 t2 c. rewrite Hmap. apply newRateLimiter_no_alias. }
  assert (Hframe : ∀ t key amt' topic key',
            topic ≠ t →
            fst <$> observe_remaining topic key'
              (match limiterMap σ !! t with
               | None => set_wd (emit (LogErrorf t) (wd σ)) σ
               | Some c =>
                   set_wd (set_heap
                     (<[c := Add (now (wd σ)) (heap (wd σ) c) key amt']> (heap (wd σ)))
                     (wd σ)) σ
               end)
            = fst <$> observe_remaining topic key' σ).
  { intros t key amt' topic key' Hne.
    destruct (limiterMap σ !! t) as [c|] eqn:Hc;
      rewrite !observe_remaining_eq by done; simpl; [|done].
    destruct (limiterMap σ !! topic) as [c'|] eqn:Hc'; [|done]. simpl.
    rewrite fn_lookup_insert_ne; [done|]. intros ->. by eapply Hne, Halias. }
  split_and!; [done| |].
  - rewrite (add_eq _ _ _ Hmu). eexists; split; [done|].
    intros topic key Hne. by apply Hframe.
  - rewrite (addRawStream_eq _ _ Hmu). eexists; split; [done|].
    intros topic key Hne. by apply Hframe.
Qed.

(** [free] empties the registry and releases the mutex, in whatever order
    it visits the entries. *)
Lemma free_in_order_empties (σ : state) (entries : list (string * loc)) :
  mu σ = unlocked →
  entries ≡ₚ map_to_list (limiterMap σ) →
  ∃ σ', free_in_order entries σ = Some (tt, σ') ∧ limiterMap σ' = ∅ ∧ mu σ' = unlocked.
Proof.
  intros Hmu Hperm.
  assert (Hkeys : ∀ t, t ∈ entries.*1 ↔ is_Some (limiterMap σ !! t)).
  { intros t. rewrite Hperm, list_elem_of_fmap. split.
    - intros ([t' p] & -> & Hin%elem_of_map_to_list). by exists p.
    - intros [p Hp]. exists (t, p). by rewrite elem_of_map_to_list. }
  destruct σ as [m rw w]; simpl in *; subst rw.
  set (σ1 := {| limiterMap := m; mu := {| writer := true; readers := 0 |}; wd := w |}).
  destruct (free_range_spec entries ∅ σ1) as (σ' & evs & Hrun & Hmu & Hmap & _).
  destruct σ' as [m' rw' w']; simpl in *; subst rw'.
  exists {| limiterMap := m'; mu := unlocked; wd := w' |}. split_and!; [|
    |done].
  - unfold free_in_order, Lock_defer, mbind, M_bind, Lock; simpl.
    change (set_mu _ _) with σ1. by rewrite Hrun.
  - apply map_eq. intros t. rewrite Hmap, lookup_empty.
    case_decide as Hin; [done|].
    rewrite Hkeys in Hin. by apply eq_None_not_Some.
Qed.

(** X3: a freed limiter serves nothing.  After [free], in whatever order
    it visited the registry, every lookup and every check on any stream
    returns the missing-collector error without penalty, every commit only
    logs and charges no collector, and a second [free] returns without
    calling [Collector.Free] again. *)
Theorem freed_limiter_serves_nothing (σ : state) (entries : list (string * loc)) :
  mu σ = unlocked →
  entries ≡ₚ map_to_list (limiterMap σ) →
  ∃ σ', free_in_order entries σ = Some (tt, σ')
    ∧ (∀ topic, topicCollector topic σ' = Some (inr (ErrNoCollector topic), σ'))
    ∧ (∀ stream amt,
         validateRequest stream amt σ' = Some (Some (ErrNoCollector (Protocol stream)), σ'))
    ∧ (∀ stream,
         validateRawRpcRequest stream σ' = Some (Some (ErrNoCollector rpcLimiterTopic), σ'))
    ∧ (∀ stream amt, ∃ σ'',
         add stream amt σ' = Some (tt, σ'') ∧ heap (wd σ'') = heap (wd σ') ∧
         trace (wd σ'') = trace (wd σ') ++ [LogErrorf (Protocol stream)])
    ∧ (∀ stream, ∃ σ'',
         addRawStream stream σ' = Some (tt, σ'') ∧ heap (wd σ'') = heap (wd σ') ∧
         trace (wd σ'') = trace (wd σ') ++ [LogErrorf rpcLimiterTopic])
    ∧ free σ' = Some (tt, σ').
Proof.
  intros Hmu Hperm.
  destruct (free_in_order_empties σ entries Hmu Hperm) as (σ' & Hrun & Hmap & Hmu').
  assert (Hw : writer (mu σ') = false) by by rewrite Hmu'.
  exists σ'. split_and!; [done|..].
  - intros topic. by rewrite topicCollector_eq, Hmap, lookup_empty.
  - intros stream amt. by rewrite validateRequest_eq, Hmap, lookup_empty.
  - intros stream. by rewrite validateRawRpcRequest_eq, Hmap, lookup_empty.
  - intros stream amt. rewrite add_eq, Hmap, lookup_empty by done. by eexists.
  - intros stream. rewrite addRawStream_eq, Hmap, lookup_empty by done. by eexists.
  - unfold free. rewrite Hmap, map_to_list_empty.
    destruct σ' as [m' rw' w']; simpl in *; subst. reflexivity.
Qed.

(** X4: what a commit changes.  When [add] returns on a stream whose topic
    is registered, it has charged the collector under that topic with the
    stream's peer and the amount, and nothing else has changed: every
    other collector, the registry, the mutex and the trace are as before.
    [addRawStream] is [add] on the catch-all topic with amount 1. *)
Theorem add_charges_one_collector (σ σ' : state) (stream : Stream) (amt : Z) (c : loc) :
  add stream amt σ = Some (tt, σ') →
  limiterMap σ !! Protocol stream = Some c →
  heap (wd σ') c = Add (now (wd σ)) (heap (wd σ) c) (PeerString (RemotePeer stream)) amt
  ∧ (∀ c', c' ≠ c → heap (wd σ') c' = heap (wd σ) c')
  ∧ limiterMap σ' = limiterMap σ ∧ mu σ' = mu σ ∧ mu σ = unlocked
  ∧ trace (wd σ') = trace (wd σ) ∧ now (wd σ') = now (wd σ)
  ∧ (∀ σ0, addRawStream stream σ0
           = add {| stream_id := stream_id stream; Protocol := rpcLimiterTopic;
                    RemotePeer := RemotePeer stream |} 1 σ0).
Proof.
  intros Hrun Hc. pose proof (Lock_defer_returns _ _ _ _ Hrun) as Hmu.
  rewrite (add_eq _ _ _ Hmu), Hc in Hrun. injection Hrun as <-. simpl.
  split_and!; try done.
  - by rewrite fn_lookup_insert.
  - intros c' Hne. by rewrite fn_lookup_insert_ne.
Qed.

(** X5: what the checks do with a negative reading.  Should the
    collector under the stream's topic report fewer than zero tokens left
    for the peer, [validateRequest] admits: the conversion to [uint64]
    turns the reading into a number no [int64] amount exceeds, so it
    returns no error and penalises nobody.  [validateRawRpcRequest]
    compares signed, and on a negative reading of the catch-all collector
    it rejects. *)
Theorem negative_reading_admits (σ : state) (stream : Stream) (amt : Z) (c : loc) :
  writer (mu σ) = false →
  limiterMap σ !! Protocol stream = Some c →
  Remaining (now (wd σ)) (heap (wd σ) c) (PeerString (RemotePeer stream)) < 0 →
  0 ≤ amt < 2 ^ 63 →
  validateRequest stream amt σ = Some (None, σ)
  ∧ (∀ c', limiterMap σ !! rpcLimiterTopic = Some c' →
       Remaining (now (wd σ)) (heap (wd σ) c') (PeerString (RemotePeer stream)) < 0 →
       ∃ σ', validateRawRpcRequest stream σ = Some (Some ErrRateLimited, σ')).
Proof.
  intros Hw Hc Hneg Hamt. split.
  - rewrite (validateRequest_eq _ _ _ Hw), Hc; simpl.
    pose proof (Remaining_int64 (now (wd σ)) (heap (wd σ) c)
                  (PeerString (RemotePeer stream))) as Hrange.
    assert (Hu : 2 ^ 63 ≤ uint64 (Remaining (now (wd σ)) (heap (wd σ) c)
                                     (PeerString (RemotePeer stream)))).
    { unfold uint64.
      rewrite <- (Z.mod_add _ 1) by lia. rewrite Z.mod_small; lia. }
    destruct (Z.gtb_spec (if amt =? 0 then 1 else amt)
                (uint64 (Remaining (now (wd σ)) (heap (wd σ) c)
                           (PeerString (RemotePeer stream))))) as [Hgt|]; [|done].
    destruct (amt =? 0); lia.
  - intros c' Hc' Hneg'.
    rewrite (validateRawRpcRequest_eq _ _ Hw), Hc'; simpl.
    destruct (Z.gtb_spec 1 (Remaining (now (wd σ)) (heap (wd σ) c')
                             (PeerString (RemotePeer stream)))); [by eauto | lia].
Qed.

End limiter_more.

(** A call that returns leaves the state [state_after] names. *)
Lemma run_state_after {A} (m : M A) (σ : state) (a : A) :
  fst <$> m σ = Some a → m σ = Some (a, state_after m σ).
Proof.
  unfold state_after. destruct (m σ) as [[a' σ']|]; simpl; [|done].
  by intros [= ->].
Qed.


(** * Further properties of the protobuf wrappers *)

Section wrappers_more.
Context `{Lib}.

(** X6: the hash of a [Resource] does not depend on its payload.  On a
    resource with no cached hash, [Hash] hashes what [EncodePb] wrote, and
    [EncodePb] writes nothing when [Marshal] succeeds: the hash is that of
    the empty byte string, so any two such resources hash alike.  When
    [Marshal] fails the bytes it returned with the error are hashed.  The
    hash is cached either way. *)
Theorem Resource_Hash_ignores_payload (m : cachedResource) :
  resource_hash m = None →
  let r := ResourceData_Marshal (Resource.data (resource m)) in
  let cached v :=
    {| resource := resource m; resource_hash := Some v; resource_size := resource_size m |} in
  (r.2 = None →
     Resource_Hash m = (protoBufHash [], cached (protoBufHash [])))
  ∧ (is_Some r.2 →
     Resource_Hash m = (protoBufHash r.1, cached (protoBufHash r.1)))
  ∧ (∀ m', resource_hash m' = None → r.2 = None →
       (ResourceData_Marshal (Resource.data (resource m'))).2 = None →
       (Resource_Hash m').1 = (Resource_Hash m).1).
Proof.
  intros Hfresh r cached.
  assert (Hok : ∀ m0, resource_hash m0 = None →
            (ResourceData_Marshal (Resource.data (resource m0))).2 = None →
            Resource_Hash m0 =
              (protoBufHash [],
               {| resource := resource m0; resource_hash := Some (protoBufHash []);
                  resource_size := resource_size m0 |})).
  { intros m0 Hf. unfold Resource_Hash, Resource.EncodePb. rewrite Hf.
    destruct (ResourceData_Marshal (Resource.data (resource m0))) as [bytes err]; simpl.
    by intros ->. }
  split_and!.
  - intros Hr. by apply Hok.
  - subst r cached. unfold Resource_Hash, Resource.EncodePb. rewrite Hfresh.
    destruct (ResourceData_Marshal _) as [bytes err]; simpl. by intros [e ->].
  - intros m' Hf' Hr Hr'. by rewrite (Hok m), (Hok m').
Qed.

(** X7: the hash of a [Task] is the hash of its marshalled payload.  On a
    task with no cached hash, [Hash] marshals the payload, an empty
    [TaskData] put in place of a nil one, and hashes the bytes when
    [Marshal] succeeds, the empty byte string when it fails; it caches the
    hash and leaves the task with a payload that is not nil.  So [TaskId],
    which panics exactly on a task whose payload is nil, returns after
    [Hash]. *)
Theorem Task_Hash_of_payload (m : cachedTask) :
  task_hash m = None →
  let t := Task.NewTask (Some (default new_TaskData (Task.data (task m)))) in
  let r := TaskData_Marshal (Task.data t) in
  let cached v := {| task := t; task_hash := Some v; task_size := task_size m |} in
  (r.2 = None → Task_Hash m = (protoBufHash r.1, cached (protoBufHash r.1)))
  ∧ (is_Some r.2 → Task_Hash m = (protoBufHash [], cached (protoBufHash [])))
  ∧ (Task_TaskId m = Panics ↔ Task.data (task m) = None)
  ∧ Task_TaskId (Task_Hash m).2
    = Returns (TaskData_TaskId (default new_TaskData (Task.data (task m)))).
Proof.
  intros Hfresh t r cached. unfold Task_Hash, Task_TaskId, Task.EncodePb. rewrite Hfresh.
  subst t r cached. destruct m as [[d] h sz]; simpl in *.
  split_and!.
  - destruct d as [td|]; simpl; destruct (TaskData_Marshal _) as [bytes err]; simpl;
      by intros ->.
  - destruct d as [td|]; simpl; destruct (TaskData_Marshal _) as [bytes err]; simpl;
      by intros [e ->].
  - by destruct d.
  - by destruct d as [td|]; simpl; destruct (TaskData_Marshal _) as [bytes err].
Qed.

(** X8: a cached hash is never refreshed.  Once [Hash] has answered, every
    later [Hash] gives the same answer and changes nothing, also after
    [DecodePb] has rewritten the payload: when [DecodePb] returns, whether
    or not with an error, it has recorded the size of the bytes it was
    given, has left the cached hash in place, and a payload pointer that
    was nil is nil still. *)
Theorem Hash_survives_DecodePb (r : cachedResource) (t : cachedTask) (data : list byte) :
  (let '(h, r') := Resource_Hash r in
   Resource_Hash r' = (h, r')
   ∧ ∀ r'' err, Resource_DecodePb r' data = Returns (r'', err) →
       Resource_Hash r'' = (h, r'')
       ∧ resource_size r'' = Some (length data)
       ∧ (is_Some (Resource.data (resource r''))
          ↔ is_Some (Resource.data (resource r'))))
  ∧ (let '(h, t') := Task_Hash t in
     Task_Hash t' = (h, t')
     ∧ ∀ t'' err, Task_DecodePb t' data = Returns (t'', err) →
         Task_Hash t'' = (h, t'')
         ∧ task_size t'' = Some (length data)
         ∧ (is_Some (Task.data (task t'')) ↔ is_Some (Task.data (task t')))).
Proof.
  split.
  - assert (Hcached : ∃ h r', Resource_Hash r = (h, r') ∧ resource_hash r' = Some h).
    { unfold Resource_Hash. destruct (resource_hash r) as [h|] eqn:Hh; [by eauto|].
      destruct (Resource.EncodePb _ _ _ _) as [buffer e]. by eauto. }
    destruct Hcached as (h & r' & -> & Hh).
    split; [unfold Resource_Hash; by rewrite Hh|].
    intros r'' err. unfold Resource_DecodePb.
    destruct (Resource.data (resource r')) as [d|]; simpl.
    + destruct (ResourceData_Unmarshal d data) as [[d' e]|]; simpl; [|done].
      intros [= <- <-]. unfold Resource_Hash; simpl. rewrite Hh.
      split_and!; [done | done |]. split; by eauto.
    + destruct (ResourceData_Unmarshal_nil data) as [e|]; simpl; [|done].
      intros [= <- <-]. unfold Resource_Hash; simpl. by rewrite Hh.
  - assert (Hcached : ∃ h t', Task_Hash t = (h, t') ∧ task_hash t' = Some h).
    { unfold Task_Hash. destruct (task_hash t) as [h|] eqn:Hh; [by eauto|].
      destruct (Task.EncodePb _ _ _ _ _) as [[t' buffer] e]. by eauto. }
    destruct Hcached as (h & t' & -> & Hh).
    split; [unfold Task_Hash; by rewrite Hh|].
    intros t'' err. unfold Task_DecodePb.
    destruct (Task.data (task t')) as [d|]; simpl.
    + destruct (TaskData_Unmarshal d data) as [[d' e]|]; simpl; [|done].
      intros [= <- <-]. unfold Task_Hash; simpl. rewrite Hh.
      split_and!; [done | done |]. split; by eauto.
    + destruct (TaskData_Unmarshal_nil data) as [e|]; simpl; [|done].
      intros [= <- <-]. unfold Task_Hash; simpl. by rewrite Hh.
Qed.

Lemma index_Returns {A} (s : list A) (i : Z) (x : A) :
  index s i = Returns x ↔ 0 ≤ i ∧ s !! Z.to_nat i = Some x.
Proof.
  unfold index. destruct (Z.ltb_spec i 0); [split; [done | lia]|].
  destruct (s !! Z.to_nat i) as [y|]; split.
  - by intros [= ->].
  - by intros [_ [= ->]].
  - done.
  - by intros [_ ?].
Qed.

Lemma index_Panics {A} (s : list A) (i : Z) :
  index s i = Panics ↔ i < 0 ∨ (length s ≤ Z.to_nat i)%nat.
Proof.
  unfold index. destruct (Z.ltb_spec i 0); [split; [auto | done]|].
  destruct (s !! Z.to_nat i) eqn:Hi.
  - apply lookup_lt_Some in Hi. split; [done | lia].
  - apply lookup_ge_None in Hi. split; [auto | done].
Qed.

(** X9: what [GetPb] returns.  Out of range, and on an element that is
    nil, both panic.  On an element in range that is not nil,
    [ResourceArray.GetPb] returns no bytes at all when [Marshal] succeeds
    (and the bytes [Marshal] returned with its error when it fails), while
    [TaskDataArray.GetPb] returns the marshalled payload when [Marshal]
    succeeds and no bytes when it fails; and it writes through the
    pointer: a task whose payload was nil has an empty [TaskData] after
    the call, all other tasks being left alone. *)
Theorem GetPb_bytes (rs : list (option (Resource.Resource ResourceData)))
    (h : loc → Task.Task TaskData) (ts : list (option loc)) (i : Z) :
  ((i < 0 ∨ (length rs ≤ Z.to_nat i)%nat) → ResourceArray_GetPb rs i = Panics)
  ∧ (index rs i = Returns None → ResourceArray_GetPb rs i = Panics)
  ∧ (∀ m, index rs i = Returns (Some m) →
       let r := ResourceData_Marshal (Resource.data m) in
       ResourceArray_GetPb rs i
       = Returns (match r.2 with Some _ => r.1 | None => [] end))
  ∧ ((i < 0 ∨ (length ts ≤ Z.to_nat i)%nat) → TaskDataArray_GetPb h ts i = Panics)
  ∧ (index ts i = Returns None → TaskDataArray_GetPb h ts i = Panics)
  ∧ (∀ p, index ts i = Returns (Some p) →
       let t := Task.NewTask (Some (default new_TaskData (Task.data (h p)))) in
       let r := TaskData_Marshal (Task.data t) in
       TaskDataArray_GetPb h ts i
       = Returns (match r.2 with Some _ => [] | None => r.1 end, <[p := t]> h)).
Proof.
  split_and!.
  - intros Hout. unfold ResourceArray_GetPb.
    by rewrite (proj2 (index_Panics rs i) Hout).
  - intros Hnil. unfold ResourceArray_GetPb. by rewrite Hnil.
  - intros m Hm r. unfold ResourceArray_GetPb, Resource.EncodePb. rewrite Hm. simpl.
    subst r. by destruct (ResourceData_Marshal _) as [bytes [e|]].
  - intros Hout. unfold TaskDataArray_GetPb.
    by rewrite (proj2 (index_Panics ts i) Hout).
  - intros Hnil. unfold TaskDataArray_GetPb. by rewrite Hnil.
  - intros p Hp t r. unfold TaskDataArray_GetPb, Task.EncodePb. rewrite Hp. simpl.
    subst t r. destruct (h p) as [[td|]]; simpl;
      by destruct (TaskData_Marshal _) as [bytes [e|]].
Qed.

(** Exchanging two cells of a list, as both [Swap] methods do. *)
Lemma swap_cells {A} (s s' : list A) (i j : Z) :
  (x ← index s i; y ← index s j; mret (<[Z.to_nat j := x]> (<[Z.to_nat i := y]> s)))
    = Returns s' →
  s' ≡ₚ s ∧ length s' = length s
  ∧ index s' i = index s j ∧ index s' j = index s i
  ∧ (∀ k, k ≠ i → k ≠ j → index s' k = index s k)
  ∧ (x ← index s' i; y ← index s' j; mret (<[Z.to_nat j := x]> (<[Z.to_nat i := y]> s')))
    = Returns s.
Proof.
  destruct (index s i) as [x|] eqn:Hi; [|done].
  destruct (index s j) as [y|] eqn:Hj; [|done].
  simpl. intros [= <-].
  apply index_Returns in Hi as [Hi0 Hi]. apply index_Returns in Hj as [Hj0 Hj].
  pose proof (lookup_lt_Some _ _ _ Hi) as Hil.
  pose proof (lookup_lt_Some _ _ _ Hj) as Hjl.
  set (a := Z.to_nat i) in *. set (b := Z.to_nat j) in *.
  assert (Ha' : <[b := x]> (<[a := y]> s) !! a = Some y).
  { destruct (decide (a = b)) as [Hab|Hab].
    - rewrite <- Hab in *. rewrite list_lookup_insert_eq by (by rewrite length_insert).
      congruence.
    - rewrite list_lookup_insert_ne by done. by rewrite list_lookup_insert_eq. }
  assert (Hb' : <[b := x]> (<[a := y]> s) !! b = Some x).
  { by rewrite list_lookup_insert_eq by (by rewrite length_insert). }
  assert (Hsi : index (<[b := x]> (<[a := y]> s)) i = Returns y)
    by (by apply index_Returns).
  assert (Hsj : index (<[b := x]> (<[a := y]> s)) j = Returns x)
    by (by apply index_Returns).
  split_and!.
  - by apply Permutation_insert_swap.
  - by rewrite !length_insert.
  - exact Hsi.
  - exact Hsj.
  - intros k Hki Hkj. unfold index. destruct (Z.ltb_spec k 0); [done|].
    rewrite !list_lookup_insert_ne by (unfold a, b; lia). done.
  - rewrite Hsi, Hsj. simpl. f_equal. fold a b.
    apply list_eq. intros n.
    destruct (decide (n = b)) as [->|Hnb].
    + rewrite list_lookup_insert_eq by (by rewrite !length_insert). done.
    + rewrite list_lookup_insert_ne by done.
      destruct (decide (n = a)) as [->|Hna].
      * rewrite list_lookup_insert_eq by (by rewrite !length_insert). done.
      * by rewrite !list_lookup_insert_ne by done.
Qed.

(** X10: [Swap] exchanges.  When it returns, the elements at [i] and [j]
    have changed places and every other element is where it was, so the
    array is a permutation of what it was, of the same length, and a
    second [Swap] of the same two indices restores it; with an index out
    of range it panics.  This holds of [ResourceArray.Swap] and of
    [TaskDataArray.Swap], whether or not the elements are nil. *)
Theorem Swap_exchanges (rs rs' : list (option (Resource.Resource ResourceData)))
    (ts ts' : list (option (Task.Task TaskData))) (i j : Z) :
  (ResourceArray_Swap rs i j = Returns rs' →
     rs' ≡ₚ rs ∧ length rs' = length rs
     ∧ index rs' i = index rs j ∧ index rs' j = index rs i
     ∧ (∀ k, k ≠ i → k ≠ j → index rs' k = index rs k)
     ∧ ResourceArray_Swap rs' i j = Returns rs)
  ∧ (TaskDataArray_Swap ts i j = Returns ts' →
     ts' ≡ₚ ts ∧ length ts' = length ts
     ∧ index ts' i = index ts j ∧ index ts' j = index ts i
     ∧ (∀ k, k ≠ i → k ≠ j → index ts' k = index ts k)
     ∧ TaskDataArray_Swap ts' i j = Returns ts)
  ∧ (ResourceArray_Swap rs i j = Panics
     ↔ ¬ (0 ≤ i < Z.of_nat (length rs) ∧ 0 ≤ j < Z.of_nat (length rs)))
  ∧ (TaskDataArray_Swap ts i j = Panics
     ↔ ¬ (0 ≤ i < Z.of_nat (length ts) ∧ 0 ≤ j < Z.of_nat (length ts))).
Proof.
  assert (Hpanics : ∀ A (s : list A),
            (x ← index s i; y ← index s j;
             mret (<[Z.to_nat j := x]> (<[Z.to_nat i := y]> s))) = Panics
            ↔ ¬ (0 ≤ i < Z.of_nat (length s) ∧ 0 ≤ j < Z.of_nat (length s))).
  { intros A s.
    destruct (index s i) as [x|] eqn:Hi; destruct (index s j) as [y|] eqn:Hj; simpl.
    - apply index_Returns in Hi as [? Hi%lookup_lt_Some].
      apply index_Returns in Hj as [? Hj%lookup_lt_Some].
      split; [done | lia].
    - apply index_Panics in Hj. split; [lia | done].
    - apply index_Panics in Hi. split; [lia | done].
    - apply index_Panics in Hi. split; [lia | done]. }
  split_and!.
  - apply swap_cells.
  - apply swap_cells.
  - apply Hpanics.
  - apply Hpanics.
Qed.

(** X11: [NewTaskDataArray] and [To] are inverse on the payloads.  The
    array built from a list of payload pointers has one task per pointer,
    in order, each holding its pointer, nil ones included; none of its
    elements is nil, so [To] returns on it, and gives the list back. *)
Theorem NewTaskDataArray_To (metaData : list (option TaskData)) :
  TaskDataArray.To (NewTaskDataArray metaData) = Returns metaData
  ∧ TaskDataArray.Len (NewTaskDataArray metaData) = length metaData
  ∧ (∀ i : nat,
       NewTaskDataArray metaData !! i
       = fmap (λ v, Some (Task.NewTask v)) (metaData !! i))
  ∧ (None ∉ NewTaskDataArray metaData)
  ∧ NewTaskDataArray [] = [].
Proof.
  assert (Hnew : NewTaskDataArray metaData = Some <$> (Task.NewTask <$> metaData)).
  { unfold NewTaskDataArray. rewrite append_loop. simpl. by rewrite <- list_fmap_compose. }
  split_and!.
  - unfold TaskDataArray.To. rewrite Hnew, To_loop_Returns. simpl.
    rewrite <- list_fmap_compose. by rewrite list_fmap_id.
  - unfold TaskDataArray.Len. by rewrite Hnew, !length_fmap.
  - intros i. rewrite Hnew, <- list_fmap_compose. by rewrite list_lookup_fmap.
  - rewrite Hnew. apply Some_fmap_no_nil.
  - done.
Qed.

(** Once the local slice has left the caller's array, the loop of [Build]
    no longer touches that array. *)
Lemma Build_detached spare (metaData : list (option ResourceData)) : ∀ caller s,
  (fold_left (Build_step spare) metaData (caller, s, false)).1.1 = caller.
Proof.
  induction metaData as [|v md IH]; intros caller s; simpl; [done|].
  destruct (append None spare s _) as [s' same]. simpl. apply IH.
Qed.

(** While it lives there, it fills the cells after its length. *)
Lemma Build_shared spare (metaData : list (option ResourceData)) : ∀ caller n,
  (n ≤ length caller)%nat →
  (fold_left (Build_step spare) metaData
     (caller, {| cells := caller; len := n |}, true)).1.1
  = take n caller
    ++ ((λ v, Some (Resource.NewResource v)) <$> take (length caller - n) metaData)
    ++ drop (n + length metaData `min` (length caller - n)) caller.
Proof.
  induction metaData as [|v md IH]; intros caller n Hn; simpl.
  - rewrite take_nil. simpl. by rewrite Nat.add_0_r, take_drop.
  - unfold append. simpl. case_bool_decide as Hroom; simpl.
    + rewrite IH by (rewrite length_insert; lia).
      rewrite length_insert.
      replace (length caller - n)%nat with (S (length caller - S n)) by lia.
      simpl. rewrite (take_S_r _ _ (Some (Resource.NewResource v)))
        by (by apply list_lookup_insert_eq).
      rewrite take_insert_ge by lia. rewrite <- app_assoc. simpl.
      rewrite drop_insert_lt by lia.
      by rewrite Nat.add_succ_r.
    + rewrite Build_detached.
      replace (length caller - n)%nat with 0%nat by lia.
      rewrite ?Nat.min_0_r, ?Nat.add_0_r. simpl.
      rewrite take_ge, drop_ge by lia. by rewrite app_nil_r.
Qed.

(** X12: [Build] builds nothing its caller can see.  It always returns
    nil, and the array it was called on keeps its length and its
    elements: the new resources go to the receiver's own copy of the slice
    header, which is dropped.  All that is left of them is in the cells of
    the caller's backing array past the slice's length, as many as fit
    below its capacity. *)
Theorem Build_builds_nothing spare
    (s : slice (option (Resource.Resource ResourceData)))
    (metaData : list (option ResourceData)) :
  (len s ≤ length (cells s))%nat →
  let caller := (ResourceArray_Build spare s metaData).1 in
  (ResourceArray_Build spare s metaData).2 = None
  ∧ length caller = length (cells s)
  ∧ take (len s) caller = take (len s) (cells s)
  ∧ caller
    = take (len s) (cells s)
      ++ ((λ v, Some (Resource.NewResource v))
            <$> take (length (cells s) - len s) metaData)
      ++ drop (len s + length metaData `min` (length (cells s) - len s)) (cells s).
Proof.
  intros Hlen caller.
  assert (Hcaller : caller
    = take (len s) (cells s)
      ++ ((λ v, Some (Resource.NewResource v))
            <$> take (length (cells s) - len s) metaData)
      ++ drop (len s + length metaData `min` (length (cells s) - len s)) (cells s)).
  { subst caller. unfold ResourceArray_Build.
    pose proof (Build_shared spare metaData (cells s) (len s) Hlen) as Hfold.
    destruct s as [cs n]. simpl in *.
    destruct (fold_left _ _ _) as [[c s'] b]. done. }
  split_and!.
  - unfold ResourceArray_Build. by destruct (fold_left _ _ _) as [[c s'] b].
  - rewrite Hcaller, !length_app, length_fmap, !length_take, length_drop. lia.
  - rewrite Hcaller. rewrite take_app_length'; [done|]. rewrite length_take. lia.
  - done.
Qed.

End wrappers_more.

(** * Properties of the conversions *)

Section conversions_facts.
Context `{ShowLib}.

(** A loop that stores the conversion of each element at its index
    computes [mapM] of the conversion. *)
Lemma range_from_fill {A B} (f : A → result B) (z : B)
    (body : nat → A → list B → result (list B)) :
  (∀ i v arr, body i v arr = (y ← f v; mret (<[i := y]> arr))) →
  ∀ l pre,
    range_from body (length pre) l (pre ++ replicate (length l) z)
    = (k ← mapM f l; mret (pre ++ k)).
Proof.
  intros Hbody. induction l as [|v l IH]; intros pre; simpl; [done|].
  rewrite Hbody. unfold mbind at 1 3, result_bind.
  destruct (f v) as [y|]; simpl; [|done].
  rewrite insert_app_r_alt, Nat.sub_diag by lia. simpl.
  specialize (IH (pre ++ [y])). rewrite length_app, Nat.add_1_r in IH.
  rewrite <- (app_assoc pre [y]) in IH. simpl in IH. rewrite IH.
  unfold mbind, result_bind. destruct (mapM f l); simpl; [|done].
  by rewrite <- app_assoc.
Qed.

Lemma range_from_mapM {A B} (f : A → result B) (z : B)
    (body : nat → A → list B → result (list B)) (l : list A) :
  (∀ i v arr, body i v arr = (y ← f v; mret (<[i := y]> arr))) →
  range_from body 0 l (replicate (length l) z) = mapM f l.
Proof.
  intros Hbody. pose proof (range_from_fill f z body Hbody l []) as Hfill.
  simpl in Hfill. rewrite Hfill. unfold mbind, result_bind.
  by destruct (mapM f l).
Qed.

Lemma DataSupplierArrToPB_mapM (ds : option (list (option TaskDataSupplierShow))) :
  ConvertTaskDataSupplierShowArrToPB ds
  = (l ← mapM ConvertTaskDataSupplierShowToPB (default [] ds); mret (Some l)).
Proof.
  unfold ConvertTaskDataSupplierShowArrToPB.
  rewrite (range_from_mapM ConvertTaskDataSupplierShowToPB); [done|].
  intros i [d|] arr; simpl; [|done].
  unfold ConvertTaskDataSupplierShowToPB. simpl.
  by destruct (ConvertNodeAliasToPB _).
Qed.

Lemma DataSupplierArrFromPB_mapM (ds : option (list (option pb.TaskDataSupplierShow))) :
  ConvertTaskDataSupplierShowArrFromPB ds
  = (l ← mapM ConvertTaskDataSupplierShowFromPB (default [] ds); mret (Some l)).
Proof.
  unfold ConvertTaskDataSupplierShowArrFromPB.
  rewrite (range_from_mapM ConvertTaskDataSupplierShowFromPB); [done|].
  intros i [d|] arr; simpl; [|done].
  unfold ConvertTaskDataSupplierShowFromPB. simpl.
  by destruct (ConvertNodeAliasFromPB _).
Qed.

Lemma PowerSupplierArrToPB_mapM (ps : option (list (option TaskPowerSupplierShow))) :
  ConvertTaskPowerSupplierShowArrToPB ps
  = (l ← mapM ConvertTaskPowerSupplierShowShowToPB (default [] ps); mret (Some l)).
Proof.
  unfold ConvertTaskPowerSupplierShowArrToPB.
  rewrite (range_from_mapM ConvertTaskPowerSupplierShowShowToPB); [done|].
  intros i [p|] arr; simpl; [|done].
  unfold ConvertTaskPowerSupplierShowShowToPB. simpl.
  destruct (ConvertNodeAliasToPB _); simpl; [|done].
  by destruct (ConvertResourceUsageToPB _).
Qed.

Lemma PowerSupplierArrFromPB_mapM (ps : option (list (option pb.TaskPowerSupplierShow))) :
  ConvertTaskPowerSupplierShowArrFromPB ps
  = (l ← mapM ConvertTaskPowerSupplierShowFromPB (default [] ps); mret (Some l)).
Proof.
  unfold ConvertTaskPowerSupplierShowArrFromPB.
  rewrite (range_from_mapM ConvertTaskPowerSupplierShowFromPB); [done|].
  intros i [p|] arr; simpl; [|done].
  unfold ConvertTaskPowerSupplierShowFromPB. simpl.
  destruct (ConvertNodeAliasFromPB _); simpl; [|done].
  by destruct (ConvertResourceUsageFromPB _).
Qed.

(** X13: each array conversion applies the conversion of one element to
    every element in order.  The four [Arr] functions spell the element
    conversion out in their loops instead of calling it; what they compute
    is [mapM] of [ConvertTaskDataSupplierShowToPB],
    [ConvertTaskDataSupplierShowFromPB],
    [ConvertTaskPowerSupplierShowShowToPB] and
    [ConvertTaskPowerSupplierShowFromPB] over the slice, the nil slice
    read as empty. *)
Theorem Arr_conversions_elementwise
    (ds : option (list (option TaskDataSupplierShow)))
    (ds' : option (list (option pb.TaskDataSupplierShow)))
    (ps : option (list (option TaskPowerSupplierShow)))
    (ps' : option (list (option pb.TaskPowerSupplierShow))) :
  ConvertTaskDataSupplierShowArrToPB ds
    = (l ← mapM ConvertTaskDataSupplierShowToPB (default [] ds); mret (Some l))
  ∧ ConvertTaskDataSupplierShowArrFromPB ds'
    = (l ← mapM ConvertTaskDataSupplierShowFromPB (default [] ds'); mret (Some l))
  ∧ ConvertTaskPowerSupplierShowArrToPB ps
    = (l ← mapM ConvertTaskPowerSupplierShowShowToPB (default [] ps); mret (Some l))
  ∧ ConvertTaskPowerSupplierShowArrFromPB ps'
    = (l ← mapM ConvertTaskPowerSupplierShowFromPB (default [] ps'); mret (Some l)).
Proof.
  split_and!.
  - apply DataSupplierArrToPB_mapM.
  - apply DataSupplierArrFromPB_mapM.
  - apply PowerSupplierArrToPB_mapM.
  - apply PowerSupplierArrFromPB_mapM.
Qed.

Lemma mapM_cons {A B} (f : A → result B) (x : A) (l : list A) :
  mapM f (x :: l) = (y ← f x; k ← mapM f l; mret (y :: k)).
Proof. done. Qed.

Lemma mapM_Panics {A B} (f : option A → result B) (l : list (option A)) :
  f None = Panics → None ∈ l → mapM f l = Panics.
Proof.
  intros Hnil. induction l as [|x l IH]; intros Hin; [by apply elem_of_nil in Hin|].
  rewrite mapM_cons. apply elem_of_cons in Hin as [<-|Hin].
  - by rewrite Hnil.
  - rewrite (IH Hin). unfold mbind, result_bind. by destruct (f x).
Qed.

Lemma mapM_Returns {A B} (f : A → result B) (l : list A) (k : list B) :
  mapM f l = Returns k → Forall2 (λ x y, f x = Returns y) l k.
Proof.
  revert k. induction l as [|x l IH]; intros k.
  - intros [= <-]. constructor.
  - rewrite mapM_cons. unfold mbind, result_bind.
    destruct (f x) as [y|] eqn:Hy; [|done].
    destruct (mapM f l) as [k'|]; [|done]. simpl. intros [= <-].
    constructor; [done | by apply IH].
Qed.

Lemma mapM_round_trip {A B} (f : A → result B) (g : B → result A) (l : list A) (k : list B) :
  (∀ x y, f x = Returns y → g y = Returns x) →
  mapM f l = Returns k → mapM g k = Returns l.
Proof.
  intros Hfg Hl. apply mapM_Returns in Hl.
  induction Hl as [|x y l k Hxy Hlk IH]; [done|].
  rewrite mapM_cons, (Hfg _ _ Hxy), IH. done.
Qed.

Lemma mapM_converts_slices {A B} (f : option A → result (option B))
    (conv : option (list (option A)) → result (option (list (option B)))) :
  (∀ s, conv s = (l ← mapM f (default [] s); mret (Some l))) →
  f None = Panics →
  (∀ x y, f x = Returns y → is_Some y) →
  converts_slices conv.
Proof.
  intros Hconv Hnil Hsome. split_and!.
  - by rewrite Hconv.
  - by rewrite Hconv.
  - intros s Hin. by rewrite Hconv, (mapM_Panics f _ Hnil Hin).
  - intros s s'. rewrite Hconv. unfold mbind, result_bind.
    destruct (mapM f (default [] s)) as [l'|] eqn:Hl; [|done].
    simpl. intros [= <-]. exists l'. apply mapM_Returns in Hl.
    split_and!; [done | symmetry; by eapply Forall2_length |].
    induction Hl; constructor; eauto.
Qed.

(** X14: the edges of the array conversions.  Each of the four turns the
    nil slice and the empty slice into an empty slice that is not nil,
    panics on a slice with a nil element, and otherwise returns a slice
    that is not nil, as long as its argument, without a nil pointer in
    it. *)
Theorem Arr_conversions_edges :
  converts_slices ConvertTaskDataSupplierShowArrToPB
  ∧ converts_slices ConvertTaskDataSupplierShowArrFromPB
  ∧ converts_slices ConvertTaskPowerSupplierShowArrToPB
  ∧ converts_slices ConvertTaskPowerSupplierShowArrFromPB.
Proof.
  split_and!.
  - apply (mapM_converts_slices ConvertTaskDataSupplierShowToPB);
      [apply DataSupplierArrToPB_mapM | done |].
    intros [d|] y; [|done]. unfold ConvertTaskDataSupplierShowToPB. simpl.
    destruct (ConvertNodeAliasToPB _); simpl; [|done]. by intros [= <-].
  - apply (mapM_converts_slices ConvertTaskDataSupplierShowFromPB);
      [apply DataSupplierArrFromPB_mapM | done |].
    intros [d|] y; [|done]. unfold ConvertTaskDataSupplierShowFromPB. simpl.
    destruct (ConvertNodeAliasFromPB _); simpl; [|done]. by intros [= <-].
  - apply (mapM_converts_slices ConvertTaskPowerSupplierShowShowToPB);
      [apply PowerSupplierArrToPB_mapM | done |].
    intros [p|] y; [|done]. unfold ConvertTaskPowerSupplierShowShowToPB. simpl.
    destruct (ConvertNodeAliasToPB _); simpl; [|done].
    destruct (ConvertResourceUsageToPB _); simpl; [|done]. by intros [= <-].
  - apply (mapM_converts_slices ConvertTaskPowerSupplierShowFromPB);
      [apply PowerSupplierArrFromPB_mapM | done |].
    intros [p|] y; [|done]. unfold ConvertTaskPowerSupplierShowFromPB. simpl.
    destruct (ConvertNodeAliasFromPB _); simpl; [|done].
    destruct (ConvertResourceUsageFromPB _); simpl; [|done]. by intros [= <-].
Qed.

Lemma DataSupplier_round_trip d p :
  (∀ a b, ConvertNodeAliasToPB a = Returns b → ConvertNodeAliasFromPB b = Returns a) →
  ConvertTaskDataSupplierShowToPB d = Returns p →
  ConvertTaskDataSupplierShowFromPB p = Returns d.
Proof.
  intros Hna. unfold ConvertTaskDataSupplierShowToPB, ConvertTaskDataSupplierShowFromPB.
  destruct d as [[mi id name]|]; simpl; [|done].
  destruct (ConvertNodeAliasToPB mi) as [mi'|] eqn:Hmi; simpl; [|done].
  intros [= <-]. simpl. by rewrite (Hna _ _ Hmi).
Qed.

Lemma PowerSupplier_round_trip d p :
  (∀ a b, ConvertNodeAliasToPB a = Returns b → ConvertNodeAliasFromPB b = Returns a) →
  (∀ u v, ConvertResourceUsageToPB u = Returns v → ConvertResourceUsageFromPB v = Returns u) →
  ConvertTaskPowerSupplierShowShowToPB d = Returns p →
  ConvertTaskPowerSupplierShowFromPB p = Returns d.
Proof.
  intros Hna Hru.
  unfold ConvertTaskPowerSupplierShowShowToPB, ConvertTaskPowerSupplierShowFromPB.
  destruct d as [[mi ru]|]; simpl; [|done].
  destruct (ConvertNodeAliasToPB mi) as [mi'|] eqn:Hmi; simpl; [|done].
  destruct (ConvertResourceUsageToPB ru) as [ru'|] eqn:Hr; simpl; [|done].
  intros [= <-]. simpl. by rewrite (Hna _ _ Hmi), (Hru _ _ Hr).
Qed.

Lemma DataSupplierArr_round_trip s s' :
  (∀ a b, ConvertNodeAliasToPB a = Returns b → ConvertNodeAliasFromPB b = Returns a) →
  ConvertTaskDataSupplierShowArrToPB s = Returns s' →
  ConvertTaskDataSupplierShowArrFromPB s' = Returns (Some (default [] s)).
Proof.
  intros Hna. rewrite DataSupplierArrToPB_mapM, DataSupplierArrFromPB_mapM.
  destruct (mapM _ (default [] s)) as [l'|] eqn:Hl; [|done]. simpl. intros [= <-].
  change (default [] (Some l')) with l'.
  by rewrite (mapM_round_trip _ ConvertTaskDataSupplierShowFromPB _ _
                (λ d p, DataSupplier_round_trip d p Hna) Hl).
Qed.

Lemma PowerSupplierArr_round_trip s s' :
  (∀ a b, ConvertNodeAliasToPB a = Returns b → ConvertNodeAliasFromPB b = Returns a) →
  (∀ u v, ConvertResourceUsageToPB u = Returns v → ConvertResourceUsageFromPB v = Returns u) →
  ConvertTaskPowerSupplierShowArrToPB s = Returns s' →
  ConvertTaskPowerSupplierShowArrFromPB s' = Returns (Some (default [] s)).
Proof.
  intros Hna Hru. rewrite PowerSupplierArrToPB_mapM, PowerSupplierArrFromPB_mapM.
  destruct (mapM _ (default [] s)) as [l'|] eqn:Hl; [|done]. simpl. intros [= <-].
  change (default [] (Some l')) with l'.
  by rewrite (mapM_round_trip _ ConvertTaskPowerSupplierShowFromPB _ _
                (λ d p, PowerSupplier_round_trip d p Hna Hru) Hl).
Qed.

(** X15: the supplier conversions round-trip.  Provided the conversions
    of [NodeAlias] and [ResourceUsage], which live elsewhere, undo each
    other, whatever [ConvertTaskDataSupplierShowToPB] or
    [ConvertTaskPowerSupplierShowShowToPB] returns is converted back to
    the argument by the matching [FromPB], and so with the array
    conversions, except that a nil slice comes back empty. *)
Theorem supplier_conversions_round_trip :
  (∀ a b, ConvertNodeAliasToPB a = Returns b → ConvertNodeAliasFromPB b = Returns a) →
  (∀ u v, ConvertResourceUsageToPB u = Returns v → ConvertResourceUsageFromPB v = Returns u) →
  (∀ d p, ConvertTaskDataSupplierShowToPB d = Returns p →
          ConvertTaskDataSupplierShowFromPB p = Returns d)
  ∧ (∀ d p, ConvertTaskPowerSupplierShowShowToPB d = Returns p →
            ConvertTaskPowerSupplierShowFromPB p = Returns d)
  ∧ (∀ s s', ConvertTaskDataSupplierShowArrToPB s = Returns s' →
             ConvertTaskDataSupplierShowArrFromPB s' = Returns (Some (default [] s)))
  ∧ (∀ s s', ConvertTaskPowerSupplierShowArrToPB s = Returns s' →
             ConvertTaskPowerSupplierShowArrFromPB s' = Returns (Some (default [] s))).
Proof.
  intros Hna Hru. split_and!.
  - intros d p. by apply DataSupplier_round_trip.
  - intros d p. by apply PowerSupplier_round_trip.
  - intros s s'. by apply DataSupplierArr_round_trip.
  - intros s s'. by apply PowerSupplierArr_round_trip.
Qed.

(** X16: [ConvertTaskDetailShowToPB] and [ConvertTaskDetailShowFromPB]
    round-trip, up to nil slices.  Provided the conversions that live
    elsewhere undo each other (those of the pointers on every value, that
    of the [Receivers] slice on the one of this task), converting a task
    to its protobuf form and back gives the task again, with every field
    in its place, except that a nil [DataSupplier] or [PowerSupplier]
    slice comes back as an empty one; on a nil task both conversions
    panic. *)
Theorem TaskDetailShow_round_trip (t : TaskDetailShow) (p : option pb.TaskDetailShow) :
  (∀ a b, ConvertNodeAliasToPB a = Returns b → ConvertNodeAliasFromPB b = Returns a) →
  (∀ b, ConvertNodeAliasArrToPB (Receivers t) = Returns b →
        ConvertNodeAliasArrFromPB b = Returns (Receivers t)) →
  (∀ u v, ConvertResourceUsageToPB u = Returns v → ConvertResourceUsageFromPB v = Returns u) →
  (∀ c d, ConvertTaskOperationCostToPB c = Returns d →
          ConvertTaskOperationCostFromPB d = Returns c) →
  ConvertTaskDetailShowToPB (Some t) = Returns p →
  ConvertTaskDetailShowFromPB p
  = Returns (Some {| TaskId := TaskId t;
                     TaskName := TaskName t;
                     Owner := Owner t;
                     AlgoSupplier := AlgoSupplier t;
                     DataSupplier := Some (default [] (DataSupplier t));
                     PowerSupplier := Some (default [] (PowerSupplier t));
                     Receivers := Receivers t;
                     CreateAt := CreateAt t;
                     StartAt := StartAt t;
                     EndAt := EndAt t;
                     State := State t;
                     OperationCost := OperationCost t |})
  ∧ (is_Some (DataSupplier t) → is_Some (PowerSupplier t) →
     ConvertTaskDetailShowFromPB p = Returns (Some t))
  ∧ ConvertTaskDetailShowToPB None = Panics
  ∧ ConvertTaskDetailShowFromPB None = Panics.
Proof.
  intros Hna Hnaa Hru Hoc Hto.
  assert (Hfrom : ConvertTaskDetailShowFromPB p
    = Returns (Some {| TaskId := TaskId t;
                       TaskName := TaskName t;
                       Owner := Owner t;
                       AlgoSupplier := AlgoSupplier t;
                       DataSupplier := Some (default [] (DataSupplier t));
                       PowerSupplier := Some (default [] (PowerSupplier t));
                       Receivers := Receivers t;
                       CreateAt := CreateAt t;
                       StartAt := StartAt t;
                       EndAt := EndAt t;
                       State := State t;
                       OperationCost := OperationCost t |})).
  { revert Hto. unfold ConvertTaskDetailShowToPB, ConvertTaskDetailShowFromPB. simpl.
    destruct (ConvertNodeAliasToPB (Owner t)) as [o|] eqn:Ho; simpl; [|done].
    destruct (ConvertNodeAliasToPB (AlgoSupplier t)) as [al|] eqn:Hal; simpl; [|done].
    destruct (ConvertTaskDataSupplierShowArrToPB _) as [ds|] eqn:Hds; simpl; [|done].
    destruct (ConvertTaskPowerSupplierShowArrToPB _) as [ps|] eqn:Hps; simpl; [|done].
    destruct (ConvertNodeAliasArrToPB _) as [rc|] eqn:Hrc; simpl; [|done].
    destruct (ConvertTaskOperationCostToPB _) as [oc|] eqn:Hopc; simpl; [|done].
    intros [= <-]. simpl.
    rewrite (Hna _ _ Ho), (Hna _ _ Hal). simpl.
    rewrite (DataSupplierArr_round_trip _ _ Hna Hds). simpl.
    rewrite (PowerSupplierArr_round_trip _ _ Hna Hru Hps). simpl.
    by rewrite (Hnaa _ eq_refl), (Hoc _ _ Hopc). }
  split_and!; [done | | done | done].
  intros [ds Hds] [ps Hps]. rewrite Hfrom. destruct t; simpl in *. by subst.
Qed.

End conversions_facts.

(** * The properties at the sample states *)

(** Freeing the registry with two aliased block topics frees the shared
    collector once. *)
Lemma free_disposes_once_witness :
  ∃ σ' ptrs,
    free sample_aliased = Some (tt, σ') ∧
    limiterMap σ' = ∅ ∧
    count_Free 1 (CollectorFree <$> ptrs) = 1%nat ∧
    count_Free 2 (CollectorFree <$> ptrs) = 1%nat.
Proof.
  destruct (free_disposes_once sample_aliased (map_to_list (limiterMap sample_aliased)))
    as [(σ' & ptrs & Hrun & Hmap & _ & _ & Hone & _) Hfree];
    [vm_compute; reflexivity | reflexivity |].
  exists σ', ptrs. split_and!; [exact (eq_trans Hfree Hrun) | exact Hmap | ..].
  - apply (Hone "/carrier/req/blocks_by_root/1/ssz_snappy"). vm_compute. reflexivity.
  - apply (Hone "/carrier/req/ping/1/ssz_snappy"). vm_compute. reflexivity.
Defined.

(** A commit of 3 under the range topic is seen under the root topic:
    the reading there drops from 100 to 97. *)
Lemma aliased_topics_share_pool_witness :
  (∃ σ',
     add sample_range 3 sample_aliased = Some (tt, σ') ∧
     fst <$> observe_remaining "/carrier/req/blocks_by_root/1/ssz_snappy" "peerA"
               sample_aliased = Some (Some 100) ∧
     fst <$> observe_remaining "/carrier/req/blocks_by_root/1/ssz_snappy" "peerA" σ'
       = Some (Some 97))
  ∧ (∃ blockCollector,
       limiterMap sample_limiter !! addEncoding RPCBlocksByRangeTopic
         = Some blockCollector ∧
       heap (wd sample_limiter) blockCollector
         = NewCollector 1 (defaultBurstLimit * 20) false).
Proof.
  destruct aliased_topics_share_pool as (_ & Hreference & Hbuilt).
  split.
  - destruct (Hreference sample_provider sample_aliased
                "/carrier/req/blocks_by_range/1/ssz_snappy"
                "/carrier/req/blocks_by_root/1/ssz_snappy" 1%nat sample_range 3)
      as (σ' & before & Hadd & Hb & Ha);
      [vm_compute; reflexivity | discriminate | vm_compute; reflexivity
      | vm_compute; reflexivity | vm_compute; reflexivity
      | apply leakybucket_facts.good_NewCollector; lia
      | exists 1000000000; vm_compute; reflexivity
      | lia |].
    assert (Hbefore : before = 100).
    { pose proof Hb as Hval. vm_compute in Hval. by injection Hval. }
    subst before. exists σ'. exact (conj Hadd (conj Hb Ha)).
  - apply (Hbuilt sample_provider reference_bucket sample_world). vm_compute. discriminate.
Defined.

(** On a limiter nobody holds, [retrieveCollector] reports the lock
    error, and [validateRequest] on the same limiter does not. *)
Lemma lock_discipline_witness :
  retrieveCollector rpcLimiterTopic sample_limiter = Some (inr ErrLockNotHeld, sample_limiter)
  ∧ is_Some (validateRequest sample_goodbye 1 sample_limiter).
Proof.
  destruct lock_discipline as (Hret & _ & _ & _ & _ & _ & _ & _ & Htotal).
  split.
  - apply Hret; vm_compute; reflexivity.
  - apply (Htotal sample_limiter); vm_compute; reflexivity.
Defined.

(** PeerA is penalised once and rejected when it asks the fresh limiter
    for two goodbye tokens, and when it asks for one after spending it. *)
Lemma validateRequest_penalises_once_witness :
  (∃ σ', validateRequest sample_goodbye 2 sample_limiter = Some (Some ErrRateLimited, σ') ∧
     trace (wd σ') =
       trace (wd sample_limiter) ++
         [Increment "peerA"; WriteErrorResponse 1 "rate limited" 7])
  ∧ (∃ σ', validateRequest sample_goodbye 1 sample_charged = Some (Some ErrRateLimited, σ') ∧
     trace (wd σ') =
       trace (wd sample_charged) ++
         [Increment "peerA"; WriteErrorResponse 1 "rate limited" 7]).
Proof.
  split.
  - destruct (proj2 validateRequest_penalises_once sample_provider sample_world
                [] sample_limiter sample_goodbye 2 1%nat)
      as [Hrej _]; [constructor | exact eq_refl | vm_compute; reflexivity |].
    destruct Hrej as (σ' & Hrun & Htr & _); [vm_compute; reflexivity|].
    exists σ'. exact (conj Hrun Htr).
  - destruct (proj1 validateRequest_penalises_once sample_provider reference_bucket
                sample_charged sample_goodbye 1 1%nat)
      as [Hrej _]; [vm_compute; reflexivity | vm_compute; reflexivity
                   | vm_compute; discriminate |].
    destruct Hrej as (σ' & Hrun & Htr & _); [vm_compute; reflexivity|].
    exists σ'. exact (conj Hrun Htr).
Defined.

(** On a fresh limiter the general check on a stream of an unknown topic
    is the per-topic check on the catch-all topic, and so it is once peerA
    has spent a goodbye token. *)
Lemma validateRawRpcRequest_is_general_check_witness :
  validateRawRpcRequest sample_unknown sample_limiter
  = checkGeneralAdmission_spec sample_unknown sample_limiter
  ∧ validateRawRpcRequest sample_unknown sample_charged
    = checkGeneralAdmission_spec sample_unknown sample_charged.
Proof.
  split.
  - apply (proj2 validateRawRpcRequest_is_general_check sample_provider sample_world
             [] sample_limiter sample_unknown); [constructor | exact eq_refl].
  - apply (proj1 validateRawRpcRequest_is_general_check sample_provider reference_bucket
             sample_charged sample_unknown).
    intros c Hc. vm_compute in Hc. injection Hc as <-. vm_compute. discriminate.
Defined.

(** On the fresh limiter a stream of an unknown topic is refused by
    [validateRequest] and passes the general check; on the freed limiter,
    where no topic is registered, the general check returns the error
    too. *)
Lemma unregistered_topic_witness :
  (∃ σ', add sample_unknown 1 sample_limiter = Some (tt, σ') ∧
     heap (wd σ') = heap (wd sample_limiter))
  ∧ validateRequest sample_unknown 1 sample_limiter
    = Some (Some (ErrNoCollector (Protocol sample_unknown)), sample_limiter)
  ∧ validateRawRpcRequest sample_unknown sample_limiter = Some (None, sample_limiter)
  ∧ validateRequest sample_unknown 1 sample_freed
    = Some (Some (ErrNoCollector (Protocol sample_unknown)), sample_freed)
  ∧ validateRawRpcRequest sample_unknown sample_freed
    = Some (Some (ErrNoCollector rpcLimiterTopic), sample_freed).
Proof.
  destruct (unregistered_topic sample_limiter sample_unknown 1)
    as ((σ' & Hadd & Hheap & _) & Hcheck & _ & Hlive);
    [vm_compute; reflexivity | vm_compute; reflexivity |].
  destruct (Hlive 6%nat) as [Hadmit _]; [vm_compute; reflexivity|].
  destruct (unregistered_topic sample_freed sample_unknown 1)
    as (_ & Hcheck' & Hraw & _);
    [vm_compute; reflexivity | vm_compute; reflexivity |].
  split_and!.
  - exists σ'. exact (conj Hadd Hheap).
  - exact Hcheck.
  - apply Hadmit. vm_compute. discriminate.
  - exact Hcheck'.
  - apply Hraw. vm_compute. reflexivity.
Defined.

(** The claim as first worded, that [validateRawRpcRequest] too returns
    an error on a stream whose topic has no registry entry, fails on the
    fresh limiter: the topic of [sample_unknown] is not registered there,
    and the general check returns nil. *)
Lemma unregistered_topic_counterexample :
  mu sample_limiter = unlocked
  ∧ limiterMap sample_limiter !! Protocol sample_unknown = None
  ∧ fst <$> validateRawRpcRequest sample_unknown sample_limiter = Some None.
Proof. split_and!; vm_compute; reflexivity. Qed.

Lemma Resource_EncodePb_writes_on_error_witness :
  Resource.EncodePb sample_Marshal sample_Write (Resource.NewResource (Some 1%nat)) []
    = ([], None)
  ∧ Task.EncodePb 0%nat sample_Marshal sample_Write (Task.NewTask None) []
    = (Task.NewTask (Some 0%nat), [Byte.x0a; Byte.x00], None).
Proof.
  destruct (Resource_EncodePb_writes_on_error sample_Marshal sample_Marshal 0%nat
              sample_Write (Resource.NewResource (Some 1%nat)) (Task.NewTask None) [])
    as (Hok & _ & Htask & _).
  split; [apply Hok; reflexivity | apply Htask; reflexivity].
Defined.

(** [To] on two resources gives two nil pointers, then the two payload
    pointers; on one task, its payload pointer. *)
Lemma ResourceArray_To_doubles_witness :
  ResourceArray.To [Some (Resource.NewResource (Some 1%nat)); Some (Resource.NewResource None)]
    = Returns [None; None; Some 1%nat; None]
  ∧ TaskDataArray.To [Some (Task.NewTask (Some 3%nat))] = Returns [Some 3%nat].
Proof.
  destruct (ResourceArray_To_doubles
              [Some (Resource.NewResource (Some 1%nat)); Some (Resource.NewResource None)]
              [Some (Task.NewTask (Some 3%nat))]) as (Hres & _ & _ & Htask & _).
  split.
  - apply (Hres [Resource.NewResource (Some 1%nat); Resource.NewResource None]).
    reflexivity.
  - apply (Htask [Task.NewTask (Some 3%nat)]). reflexivity.
Defined.

(** The claim as first worded, for every [ResourceArray], fails on an
    array with a nil element: [To] does not return there. *)
Lemma ResourceArray_To_counterexample :
  ResourceArray.Len [Some (Resource.NewResource (Some 1%nat)); None] = 2%nat
  ∧ ResourceArray.To [Some (Resource.NewResource (Some 1%nat)); None] = Panics
  ∧ ¬ ∃ arr : list (option nat),
        ResourceArray.To [Some (Resource.NewResource (Some 1%nat)); None] = Returns arr.
Proof. split_and!; [done | done | by intros [arr ?]]. Qed.

(** ** The further properties at sample inputs *)

(** A rejected check on the fresh limiter leaves the collectors, the
    registry and the mutex alone. *)
Lemma checks_consume_nothing_witness :
  let σ' := state_after (validateRequest sample_goodbye 2) sample_limiter in
  heap (wd σ') = heap (wd sample_limiter)
  ∧ limiterMap σ' = limiterMap sample_limiter
  ∧ mu σ' = mu sample_limiter
  ∧ fst <$> validateRequest sample_goodbye 1 σ'
    = fst <$> validateRequest sample_goodbye 1 sample_limiter.
Proof.
  intros σ'.
  destruct (checks_consume_nothing sample_limiter σ' sample_goodbye 2 (Some ErrRateLimited))
    as (Hheap & Hmap & Hmu & Hnext & _).
  - left. apply run_state_after. vm_compute. reflexivity.
  - exact (conj Hheap (conj Hmap (conj Hmu (Hnext sample_goodbye 1)))).
Defined.

(** After peerA has spent a goodbye token on the fresh limiter, a
    commit under the block topic leaves the reading under the goodbye
    topic as it was. *)
Lemma topics_do_not_interfere_witness :
  let σ := state_after (run_calls [CallAdd sample_goodbye 1]) sample_limiter in
  ∃ σ', add sample_range 3 σ = Some (tt, σ') ∧
    fst <$> observe_remaining "/carrier/req/goodbye/1/ssz_snappy" "peerA" σ'
    = fst <$> observe_remaining "/carrier/req/goodbye/1/ssz_snappy" "peerA" σ.
Proof.
  intros σ.
  destruct (topics_do_not_interfere sample_world [CallAdd sample_goodbye 1] σ sample_range 3)
    as (_ & (σ' & Hadd & Hframe) & _).
  - apply (run_state_after (run_calls [CallAdd sample_goodbye 1]) (newRateLimiter sample_world)).
    vm_compute. reflexivity.
  - exists σ'. split; [exact Hadd|]. apply Hframe. discriminate.
Defined.

(** The registry with the aliased block topics, once freed, answers a
    check with the missing-collector error and a second [free] by doing
    nothing. *)
Lemma freed_limiter_serves_nothing_witness :
  ∃ σ', free_in_order (map_to_list (limiterMap sample_aliased)) sample_aliased = Some (tt, σ')
    ∧ validateRequest sample_range 1 σ'
      = Some (Some (ErrNoCollector (Protocol sample_range)), σ')
    ∧ free σ' = Some (tt, σ').
Proof.
  destruct (freed_limiter_serves_nothing sample_aliased
              (map_to_list (limiterMap sample_aliased)))
    as (σ' & Hfree & _ & Hcheck & _ & _ & _ & Hagain);
    [vm_compute; reflexivity | reflexivity |].
  exists σ'. exact (conj Hfree (conj (Hcheck sample_range 1) Hagain)).
Defined.

(** PeerA's goodbye commit on the fresh limiter charges the goodbye
    collector and no other. *)
Lemma add_charges_one_collector_witness :
  let σ' := state_after (add sample_goodbye 1) sample_limiter in
  ∃ c, limiterMap sample_limiter !! Protocol sample_goodbye = Some c
    ∧ heap (wd σ') c
      = Add (now (wd sample_limiter)) (heap (wd sample_limiter) c) "peerA" 1
    ∧ (∀ c', c' ≠ c → heap (wd σ') c' = heap (wd sample_limiter) c')
    ∧ trace (wd σ') = trace (wd sample_limiter).
Proof.
  intros σ'.
  assert (Hc : ∃ c, limiterMap sample_limiter !! Protocol sample_goodbye = Some c).
  { vm_compute. eexists. reflexivity. }
  destruct Hc as [c Hc]. exists c.
  destruct (add_charges_one_collector sample_limiter σ' sample_goodbye 1 c)
    as (Hcharged & Hothers & _ & _ & _ & Htrace & _).
  - apply run_state_after. vm_compute. reflexivity.
  - exact Hc.
  - exact (conj Hc (conj Hcharged (conj Hothers Htrace))).
Defined.

(** With peerA's bucket filled past the capacity, a request for five
    goodbye tokens is admitted and the general check rejects. *)
Lemma negative_reading_admits_witness :
  validateRequest sample_goodbye 5 sample_overdrawn = Some (None, sample_overdrawn)
  ∧ ∃ σ', validateRawRpcRequest sample_goodbye sample_overdrawn
          = Some (Some ErrRateLimited, σ').
Proof.
  destruct (negative_reading_admits sample_overdrawn sample_goodbye 5 1%nat)
    as [Hadmit Hraw];
    [vm_compute; reflexivity | vm_compute; reflexivity | vm_compute; reflexivity | lia |].
  split; [exact Hadmit|].
  apply (Hraw 2%nat); vm_compute; reflexivity.
Defined.

(** *** The wrappers over the sample payloads *)

(** Resources with payloads 1 and 2 hash alike, to the hash of no
    bytes. *)
Lemma Resource_Hash_ignores_payload_witness :
  let m n := {| resource := Resource.NewResource (Some n);
                resource_hash := None; resource_size := None |} in
  (Resource_Hash (m 1%nat)).1 = protoBufHash []
  ∧ (Resource_Hash (m 2%nat)).1 = (Resource_Hash (m 1%nat)).1.
Proof.
  intros m.
  destruct (Resource_Hash_ignores_payload (m 1%nat)) as (Hok & _ & Hsame);
    [reflexivity|].
  split.
  - rewrite Hok; reflexivity.
  - apply (Hsame (m 2%nat)); reflexivity.
Defined.

(** A task without payload hashes to the bytes of the empty payload, and
    has the empty payload afterwards. *)
Lemma Task_Hash_of_payload_witness :
  let m := {| task := Task.NewTask None; task_hash := None; task_size := None |} in
  Task_Hash m
  = ([Byte.x0a; Byte.x00],
     {| task := Task.NewTask (Some 0%nat); task_hash := Some [Byte.x0a; Byte.x00];
        task_size := None |})
  ∧ Task_TaskId m = Panics
  ∧ Task_TaskId (Task_Hash m).2 = Returns "".
Proof.
  intros m.
  destruct (Task_Hash_of_payload m) as (Hok & _ & Hnil & Hid); [reflexivity|].
  split_and!.
  - apply Hok. reflexivity.
  - apply Hnil. reflexivity.
  - exact Hid.
Defined.

(** A resource hashed and then decoded from two bytes keeps its hash and
    records the size 2. *)
Lemma Hash_survives_DecodePb_witness :
  let r := {| resource := Resource.NewResource (Some 1%nat);
              resource_hash := None; resource_size := None |} in
  let r'' := {| resource := Resource.NewResource (Some 2%nat);
                resource_hash := Some []; resource_size := Some 2%nat |} in
  Resource_DecodePb (Resource_Hash r).2 [Byte.x0a; Byte.x02] = Returns (r'', None)
  ∧ Resource_Hash r'' = ([], r'')
  ∧ resource_size r'' = Some 2%nat.
Proof.
  intros r r''.
  assert (Hrun : Resource_DecodePb (Resource_Hash r).2 [Byte.x0a; Byte.x02]
                 = Returns (r'', None)) by reflexivity.
  pose proof (proj1 (Hash_survives_DecodePb r
                       {| task := Task.NewTask None; task_hash := None; task_size := None |}
                       [Byte.x0a; Byte.x02])) as Hres.
  change (Resource_Hash r) with (@nil byte, (Resource_Hash r).2) in Hres.
  destruct Hres as [_ Hres].
  destruct (Hres r'' None Hrun) as (Hhash & Hsize & _).
  exact (conj Hrun (conj Hhash Hsize)).
Defined.

(** In an array of a resource and a nil pointer, and of two tasks and a
    nil pointer, the elements are served, the nil pointer and the index
    past the end panic. *)
Lemma GetPb_bytes_witness :
  let rs := [Some (Resource.NewResource (Some 1%nat)); None] in
  let h (p : loc) := Task.NewTask (if decide (p = 1%nat) then None else Some 3%nat) in
  let ts := [Some 0%nat; Some 1%nat; None] in
  ResourceArray_GetPb rs 2 = Panics
  ∧ ResourceArray_GetPb rs 1 = Panics
  ∧ ResourceArray_GetPb rs 0 = Returns []
  ∧ TaskDataArray_GetPb h ts 3 = Panics
  ∧ TaskDataArray_GetPb h ts 2 = Panics
  ∧ TaskDataArray_GetPb h ts 1
    = Returns ([Byte.x0a; Byte.x00], <[1%nat := Task.NewTask (Some 0%nat)]> h).
Proof.
  intros rs h ts.
  destruct (@GetPb_bytes sample_lib rs h ts 3) as (_ & _ & _ & Ht & _ & _).
  destruct (@GetPb_bytes sample_lib rs h ts 2) as (Hr & _ & _ & _ & Htnil & _).
  destruct (@GetPb_bytes sample_lib rs h ts 1) as (_ & Hrnil & _ & _ & _ & Ht1).
  destruct (@GetPb_bytes sample_lib rs h ts 0) as (_ & _ & Hr0 & _ & _ & _).
  split_and!.
  - apply Hr. right. simpl. lia.
  - apply Hrnil. reflexivity.
  - apply (Hr0 (Resource.NewResource (Some 1%nat))). reflexivity.
  - apply Ht. right. simpl. lia.
  - apply Htnil. reflexivity.
  - apply (Ht1 1%nat). reflexivity.
Defined.

(** Swapping the ends of a three-element array whose middle element is
    nil, and swapping back. *)
Lemma Swap_exchanges_witness :
  let r n := Some (Resource.NewResource (Some n)) in
  let t n := Some (Task.NewTask (Some n)) in
  ResourceArray_Swap [r 1; None; r 3]%nat 0 2 = Returns [r 3; None; r 1]%nat
  ∧ ResourceArray_Swap [r 3; None; r 1]%nat 0 2 = Returns [r 1; None; r 3]%nat
  ∧ TaskDataArray_Swap [t 3; None; t 1]%nat 0 2 = Returns [t 1; None; t 3]%nat
  ∧ ResourceArray_Swap [r 1; None; r 3]%nat 0 3 = Panics.
Proof.
  intros r t.
  assert (Hr : ResourceArray_Swap [r 1; None; r 3]%nat 0 2 = Returns [r 3; None; r 1]%nat)
    by reflexivity.
  assert (Ht : TaskDataArray_Swap [t 1; None; t 3]%nat 0 2 = Returns [t 3; None; t 1]%nat)
    by reflexivity.
  destruct (@Swap_exchanges sample_lib [r 1; None; r 3]%nat [r 3; None; r 1]%nat
              [t 1; None; t 3]%nat [t 3; None; t 1]%nat 0 2) as (Hrs & Hts & _ & _).
  destruct (@Swap_exchanges sample_lib [r 1; None; r 3]%nat [] [] [] 0 3)
    as (_ & _ & Hpanic & _).
  split_and!.
  - exact Hr.
  - apply Hrs. exact Hr.
  - apply Hts. exact Ht.
  - apply Hpanic. simpl. lia.
Defined.

(** [Build] with two payloads on a slice of length 1 and capacity 2:
    the caller's slice keeps its element, and the first new resource sits
    in the spare cell. *)
Lemma Build_builds_nothing_witness :
  let s := {| cells := [Some (Resource.NewResource (Some 1%nat)); None]; len := 1 |} in
  ResourceArray_Build (λ n, n) s [Some 5%nat; Some 6%nat]
  = ([Some (Resource.NewResource (Some 1%nat)); Some (Resource.NewResource (Some 5%nat))],
     None).
Proof.
  intros s.
  destruct (@Build_builds_nothing sample_lib (λ n, n) s [Some 5%nat; Some 6%nat])
    as (Herr & _ & _ & Hcaller); [simpl; lia|].
  rewrite (surjective_pairing (ResourceArray_Build _ _ _)), Herr, Hcaller.
  reflexivity.
Defined.

(** *** The conversions over the sample types *)

Lemma supplier_conversions_round_trip_witness :
  let d := Some {| ds_MemberInfo := Some "org1"; ds_MetaDataId := "meta1";
                   ds_MetaDataName := "name1" |} in
  let p := Some {| pb.ds_MemberInfo := Some "org1"; pb.ds_MetaDataId := "meta1";
                   pb.ds_MetaDataName := "name1" |} in
  ConvertTaskDataSupplierShowFromPB p = Returns d
  ∧ ConvertTaskDataSupplierShowArrFromPB (Some [p]) = Returns (Some [d])
  ∧ ConvertTaskPowerSupplierShowArrFromPB (Some []) = Returns (Some []).
Proof.
  intros d p.
  destruct supplier_conversions_round_trip as (Hd & _ & Hds & Hps).
  - intros a b [= ->]. reflexivity.
  - intros u v [= ->]. reflexivity.
  - split_and!.
    + apply Hd. reflexivity.
    + apply (Hds (Some [d])). reflexivity.
    + apply (Hps None). reflexivity.
Defined.

(** A task with one data supplier and a nil slice of power suppliers
    comes back with an empty one. *)
Lemma TaskDetailShow_round_trip_witness :
  let t ps := {| TaskId := "task1"; TaskName := "name"; Owner := Some "org1";
                 AlgoSupplier := Some "org2";
                 DataSupplier := Some [Some {| ds_MemberInfo := Some "org1";
                                               ds_MetaDataId := "meta1";
                                               ds_MetaDataName := "name1" |}];
                 PowerSupplier := ps;
                 Receivers := Some [Some "org3"];
                 CreateAt := 1; StartAt := 2; EndAt := 3; State := "running";
                 OperationCost := Some "cost" |} in
  ∃ p, ConvertTaskDetailShowToPB (Some (t None)) = Returns p
    ∧ ConvertTaskDetailShowFromPB p = Returns (Some (t (Some []))).
Proof.
  intros t.
  destruct (ConvertTaskDetailShowToPB (Some (t None))) as [p|] eqn:Hto; [|discriminate Hto].
  exists p. split; [reflexivity|].
  destruct (TaskDetailShow_round_trip (t None) p) as (Hfrom & _).
  - intros a b [= ->]. reflexivity.
  - intros b [= <-]. reflexivity.
  - intros u v [= ->]. reflexivity.
  - intros c d [= ->]. reflexivity.
  - exact Hto.
  - exact Hfrom.
Defined.
